(** * gorkpool: a resizable worker pool

    A shallow embedding of [gorkpool.go] and [errors.go].

    The Go methods are written once, as small programs over the atomic
    operations the source performs on the pool (lock, map lookup, map insert,
    [wg.Add], [go], channel close, ...).  Two semantics are given to these
    programs:

    - a sequential one ([exec]), where one method runs alone from entry to
      return: used for the registry contract of the API;
    - an interleaving one ([sys_step]), where caller threads, worker
      goroutines and the shutdown goroutine take turns one atomic operation
      at a time: used for the critical section of [AddWorker] and for the
      order of [gracefullyShutdown]. *)

From stdpp Require Import gmap list.
From Stdlib Require Import ZArith Lia.

Set Default Proof Using "Type*".

(** ** Outcomes of an operation *)

(** A Go operation returns, blocks its goroutine, or panics. *)
Inductive outcome (A : Type) : Type :=
| Done (a : A)
| Blocked
| Panic.
Arguments Done {A} a.
Arguments Blocked {A}.
Arguments Panic {A}.

(** ** Channels *)

(** The state of a buffered Go channel: what is queued, how much fits, and
    whether [close] was called on it. *)
Record Chan (T : Type) : Type := mkChan {
  buf : list T;
  cap : nat;
  closed : bool;
}.
Arguments mkChan {T} buf cap closed.
Arguments buf {T} c.
Arguments cap {T} c.
Arguments closed {T} c.

(** [close(c)]: closing a closed channel panics. *)
Definition chan_close {T} (c : Chan T) : outcome (Chan T) :=
  if closed c then Panic
  else Done {| buf := buf c; cap := cap c; closed := true |}.

(** [c <- v]: sending on a closed channel panics; a send blocks while the
    buffer is full. *)
Definition chan_send {T} (v : T) (c : Chan T) : outcome (Chan T) :=
  if closed c then Panic
  else if decide (length (buf c) < cap c)
       then Done {| buf := buf c ++ [v]; cap := cap c; closed := closed c |}
       else Blocked.

(** The direction part of a Go channel type: [chan T], [<-chan T],
    [chan<- T]. *)
Inductive ChanDir : Type := BothDir | RecvDir | SendDir.

(** What Go's type rules allow on a value of a channel type. *)
Definition can_send (d : ChanDir) : bool :=
  match d with BothDir | SendDir => true | RecvDir => false end.
Definition can_recv (d : ChanDir) : bool :=
  match d with BothDir | RecvDir => true | SendDir => false end.
Definition can_close (d : ChanDir) : bool :=
  match d with BothDir | SendDir => true | RecvDir => false end.

(** The two channel objects a pool refers to. *)
Inductive chan_name : Type := InputChan | OutputChan.

(** A channel value as a caller holds it: which channel object it refers
    to, and the static type it was handed out at. *)
Record chan_handle : Type := mkHandle {
  h_chan : chan_name;
  h_dir : ChanDir;
}.

(** [p.inputCh] and [p.outputCh] as values: both fields have a
    bidirectional type, [chan Task] and [chan Result]. *)
Definition inputHandle : chan_handle :=
  {| h_chan := InputChan; h_dir := BothDir |}.
Definition outputHandle : chan_handle :=
  {| h_chan := OutputChan; h_dir := BothDir |}.

Section Pool.

(** [Id comparable, Task any, Result any] *)
Context {Id : Type} `{Countable Id}.
Context {Task Result : Type}.

(** *** errors.go *)

Record ErrIdConflict : Type := mkErrIdConflict { err_id : Id }.

Definition NewErrIdConflict (id : Id) : ErrIdConflict :=
  {| err_id := id |}.

(** Go's [error] values as far as the pool meets them: its own
    [ErrIdConflict], or whatever else a factory returns (type [FErr]). *)
Context {FErr : Type}.

Inductive error : Type :=
| IdConflict (e : ErrIdConflict)
| FactoryError (e : FErr).

(** *** The worker interface

    [ID()] is a pure query.  [Process()] and [SignalRemoval()] are calls
    into caller code: they are operations of the program monad below, and
    show up as events. *)
Class GorkWorker (W : Type) : Type := { ID : W → Id }.

Context {W : Type} `{GorkWorker W}.

(** [WorkerFactoryFn]: [inl w] is the return [(w, nil)], [inr e] a return
    with a non-nil error. *)
Definition WorkerFactoryFn : Type :=
  Id → chan_handle → chan_handle → W + error.

(** *** The pool *)

Record GorkPool : Type := mkPool {
  mutex : bool;                     (* true: locked *)
  workers : gmap Id W;
  createWorkerFn : WorkerFactoryFn;
  wg : nat;                         (* the WaitGroup counter *)
  ctx : bool;                       (* true: ctx.Done() is closed *)
  inputCh : Chan Task;
  outputCh : Chan Result;
}.

Definition set_mutex (b : bool) (p : GorkPool) : GorkPool :=
  mkPool b (workers p) (createWorkerFn p) (wg p) (ctx p) (inputCh p) (outputCh p).
Definition set_workers (m : gmap Id W) (p : GorkPool) : GorkPool :=
  mkPool (mutex p) m (createWorkerFn p) (wg p) (ctx p) (inputCh p) (outputCh p).
Definition set_wg (n : nat) (p : GorkPool) : GorkPool :=
  mkPool (mutex p) (workers p) (createWorkerFn p) n (ctx p) (inputCh p) (outputCh p).
Definition set_ctx (b : bool) (p : GorkPool) : GorkPool :=
  mkPool (mutex p) (workers p) (createWorkerFn p) (wg p) b (inputCh p) (outputCh p).
Definition set_inputCh (c : Chan Task) (p : GorkPool) : GorkPool :=
  mkPool (mutex p) (workers p) (createWorkerFn p) (wg p) (ctx p) c (outputCh p).
Definition set_outputCh (c : Chan Result) (p : GorkPool) : GorkPool :=
  mkPool (mutex p) (workers p) (createWorkerFn p) (wg p) (ctx p) (inputCh p) c.

(** [p.createWorkerFn(id, p.inputCh, p.outputCh)] *)
Definition create_worker (p : GorkPool) (id : Id) : W + error :=
  createWorkerFn p id inputHandle outputHandle.

(** The goroutines the package starts: the one around a worker's
    [Process] (in [AddWorker]) and the shutdown one (in [NewGorkPool]). *)
Inductive goroutine : Type :=
| GWorker (w : W)
| GShutdown.

(** *** Atomic operations *)

Inductive op : Type → Type :=
| CreateWorker (id : Id) : op (W + error)     (* p.createWorkerFn(id, ...) *)
| MutexLock : op unit                         (* p.mutex.Lock() *)
| MutexUnlock : op unit                       (* p.mutex.Unlock() *)
| MapLookup (id : Id) : op (option W)         (* _, ok := p.workers[id] *)
| MapInsert (id : Id) (w : W) : op unit       (* p.workers[id] = w *)
| MapDelete (id : Id) : op unit               (* delete(p.workers, id) *)
| MapRangeFirst : op (option (Id * W))        (* first entry of a range *)
| MapLen : op Z                               (* len(p.workers) *)
| WgAdd : op unit                             (* p.wg.Add(1) *)
| WgDone : op unit                            (* p.wg.Done() *)
| WgWait : op unit                            (* p.wg.Wait() *)
| GoStart (g : goroutine) : op unit           (* go ... *)
| Process (w : W) : op unit                   (* w.Process() *)
| SignalRemoval (w : W) : op unit             (* w.SignalRemoval() *)
| CtxDone : op unit                           (* <-p.ctx.Done() *)
| ChanClose (c : chan_name) : op unit         (* close(...) *)
| SendTask (t : Task) : op unit.              (* p.inputCh <- task *)

(** What an operation leaves in the trace.  Reads leave nothing. *)
Inductive event : Type :=
| EvLock
| EvUnlock
| EvInsert (id : Id) (w : W)
| EvDelete (id : Id)
| EvWgAdd
| EvWgDone
| EvWgWait                   (* wg.Wait() returned *)
| EvGo (g : goroutine)
| EvProcessReturn (w : W)    (* w.Process() returned *)
| EvSignalRemoval (w : W)
| EvCtxDone                  (* the receive from ctx.Done() returned *)
| EvClose (c : chan_name)
| EvSend (t : Task).

Definition op_events {X} (o : op X) : list event :=
  match o with
  | CreateWorker _ | MapLookup _ | MapRangeFirst | MapLen => []
  | MutexLock => [EvLock]
  | MutexUnlock => [EvUnlock]
  | MapInsert id w => [EvInsert id w]
  | MapDelete id => [EvDelete id]
  | WgAdd => [EvWgAdd]
  | WgDone => [EvWgDone]
  | WgWait => [EvWgWait]
  | GoStart g => [EvGo g]
  | Process w => [EvProcessReturn w]
  | SignalRemoval w => [EvSignalRemoval w]
  | CtxDone => [EvCtxDone]
  | ChanClose c => [EvClose c]
  | SendTask t => [EvSend t]
  end.

(** Go leaves the order of a [range] over a map unspecified and starts it
    at a random place.  [seed] stands for that choice: the first entry
    met is the [seed]-th one (modulo the size) of the map's entries. *)
Definition range_first (seed : nat) (m : gmap Id W) : option (Id * W) :=
  map_to_list m !! (seed `mod` size m).

(** One atomic operation on the pool.  [Process] and [SignalRemoval] run
    caller code the pool knows nothing about: on the pool's own state they
    do nothing, and the step of [Process] is its return. *)
Definition do_op {X} (o : op X) (seed : nat) (p : GorkPool)
  : outcome (X * GorkPool) :=
  match o in op X return outcome (X * GorkPool) with
  | CreateWorker id => Done (create_worker p id, p)
  | MutexLock =>
      if mutex p then Blocked else Done (tt, set_mutex true p)
  | MutexUnlock =>
      if mutex p then Done (tt, set_mutex false p) else Panic
  | MapLookup id => Done (workers p !! id, p)
  | MapInsert id w => Done (tt, set_workers (<[id := w]> (workers p)) p)
  | MapDelete id => Done (tt, set_workers (delete id (workers p)) p)
  | MapRangeFirst => Done (range_first seed (workers p), p)
  | MapLen => Done (Z.of_nat (size (workers p)), p)
  | WgAdd => Done (tt, set_wg (S (wg p)) p)
  | WgDone =>
      match wg p with
      | O => Panic                              (* negative counter *)
      | S n => Done (tt, set_wg n p)
      end
  | WgWait =>
      match wg p with
      | O => Done (tt, p)
      | S _ => Blocked
      end
  | GoStart _ => Done (tt, p)
  | Process _ => Done (tt, p)
  | SignalRemoval _ => Done (tt, p)
  | CtxDone => if ctx p then Done (tt, p) else Blocked
  | ChanClose InputChan =>
      match chan_close (inputCh p) with
      | Done c => Done (tt, set_inputCh c p)
      | Blocked => Blocked
      | Panic => Panic
      end
  | ChanClose OutputChan =>
      match chan_close (outputCh p) with
      | Done c => Done (tt, set_outputCh c p)
      | Blocked => Blocked
      | Panic => Panic
      end
  | SendTask t =>
      match chan_send t (inputCh p) with
      | Done c => Done (tt, set_inputCh c p)
      | Blocked => Blocked
      | Panic => Panic
      end
  end.

(** *** Programs *)

Inductive prog (A : Type) : Type :=
| Ret (a : A)
| Vis {X : Type} (o : op X) (k : X → prog A).
Arguments Ret {A} a.
Arguments Vis {A X} o k.

Notation "'let!' x := o 'in' k" := (Vis o (λ x, k))
  (at level 10, x name, o at level 100, k at level 200, only parsing).
Notation "'do!' o 'in' k" := (Vis o (λ _, k))
  (at level 10, o at level 100, k at level 200, only parsing).

(** *** gorkpool.go *)

(** [AddWorker], from the lock on.  [defer p.mutex.Unlock()] runs at each
    of the two returns. *)
Definition AddWorker_locked (w : W) : prog (option error) :=
  do! MutexLock in
  let! found := MapLookup (ID w) in
  match found with
  | Some _ =>
      do! MutexUnlock in
      Ret (Some (IdConflict (NewErrIdConflict (ID w))))
  | None =>
      do! WgAdd in
      do! MapInsert (ID w) w in
      do! GoStart (GWorker w) in
      do! MutexUnlock in
      Ret None
  end.

(** [None] is the [nil] error. *)
Definition AddWorker (id : Id) : prog (option error) :=
  let! r := CreateWorker id in
  match r with
  | inr err => Ret (Some err)
  | inl w => AddWorker_locked w
  end.

(** The body of the goroutine [AddWorker] starts. *)
Definition worker_goroutine (w : W) : prog unit :=
  do! Process w in
  do! WgDone in
  Ret tt.

(** [RemoveWorker], after the unlock.  [None] is a [nil] worker. *)
Definition signal_and_return (target : option W) : prog (option W) :=
  match target with
  | None => Ret None
  | Some w => do! SignalRemoval w in Ret (Some w)
  end.

(** The [for ... range] loop breaks in its first iteration. *)
Definition RemoveWorker : prog (option W) :=
  do! MutexLock in
  let! first := MapRangeFirst in
  match first with
  | Some (id, w) =>
      do! MapDelete id in
      do! MutexUnlock in
      signal_and_return (Some w)
  | None =>
      do! MutexUnlock in
      signal_and_return None
  end.

Definition RemoveWorkerById (id : Id) : prog (option W) :=
  do! MutexLock in
  let! found := MapLookup id in
  match found with
  | None =>
      do! MutexUnlock in
      Ret None
  | Some target =>
      do! MapDelete id in
      do! MutexUnlock in
      do! SignalRemoval target in
      Ret (Some target)
  end.

Definition Length : prog Z :=
  do! MutexLock in
  let! n := MapLen in
  do! MutexUnlock in
  Ret n.

Definition Contains (id : Id) : prog bool :=
  do! MutexLock in
  let! found := MapLookup id in
  do! MutexUnlock in
  Ret (bool_decide (is_Some found)).

Definition AddTask (task : Task) : prog unit :=
  do! SendTask task in
  Ret tt.

(** [return p.outputCh], at the declared result type [chan Result]. *)
Definition OutputCh : prog chan_handle :=
  Ret outputHandle.

Definition gracefullyShutdown : prog unit :=
  do! CtxDone in
  do! ChanClose InputChan in
  do! WgWait in
  do! ChanClose OutputChan in
  Ret tt.

Definition goroutine_prog (g : goroutine) : prog unit :=
  match g with
  | GWorker w => worker_goroutine w
  | GShutdown => gracefullyShutdown
  end.

(** [NewGorkPool] builds the pool and starts the shutdown goroutine.
    [cancelled] tells whether the context handed in is already done. *)
Definition NewGorkPool (cancelled : bool) (inputCh : Chan Task)
    (outputCh : Chan Result) (createWorkerFn : WorkerFactoryFn)
  : GorkPool * list goroutine :=
  ({| mutex := false;
      workers := ∅;
      createWorkerFn := createWorkerFn;
      wg := 0;
      ctx := cancelled;
      inputCh := inputCh;
      outputCh := outputCh |},
   [GShutdown]).

(** ** Sequential semantics: one call, run from entry to return *)

Record run (A : Type) : Type := mkRun {
  result : outcome A;
  final : GorkPool;
  events : list event;
}.
Arguments mkRun {A} result final events.
Arguments result {A} r.
Arguments final {A} r.
Arguments events {A} r.

Fixpoint exec {A} (t : prog A) (seed : nat) (p : GorkPool) : run A :=
  match t with
  | Ret a => mkRun (Done a) p []
  | Vis o k =>
      match do_op o seed p with
      | Done (x, p') =>
          let r := exec (k x) seed p' in
          mkRun (result r) (final r) (op_events o ++ events r)
      | Blocked => mkRun Blocked p []
      | Panic => mkRun Panic p []
      end
  end.

(** *** A sequence of calls by one caller *)

Inductive api_call : Type :=
| CallAddWorker (id : Id)
| CallRemoveWorker
| CallRemoveWorkerById (id : Id)
| CallLength
| CallContains (id : Id)
| CallAddTask (task : Task)
| CallOutputCh.

Inductive ret_val : Type :=
| RetErr (e : option error)
| RetWorker (w : option W)
| RetInt (n : Z)
| RetBool (b : bool)
| RetUnit
| RetChan (h : chan_handle).

Definition outcome_map {A B} (f : A → B) (o : outcome A) : outcome B :=
  match o with
  | Done a => Done (f a)
  | Blocked => Blocked
  | Panic => Panic
  end.

Definition run_map {A B} (f : A → B) (r : run A) : run B :=
  mkRun (outcome_map f (result r)) (final r) (events r).

Definition exec_call (c : api_call) (seed : nat) (p : GorkPool) : run ret_val :=
  match c with
  | CallAddWorker id => run_map RetErr (exec (AddWorker id) seed p)
  | CallRemoveWorker => run_map RetWorker (exec RemoveWorker seed p)
  | CallRemoveWorkerById id => run_map RetWorker (exec (RemoveWorkerById id) seed p)
  | CallLength => run_map RetInt (exec Length seed p)
  | CallContains id => run_map RetBool (exec (Contains id) seed p)
  | CallAddTask task => run_map (λ _, RetUnit) (exec (AddTask task) seed p)
  | CallOutputCh => run_map RetChan (exec OutputCh seed p)
  end.

(** Each call comes with the seed its map range (if any) uses.  The
    outcomes are listed in call order, next to the pool left at the end.
    The caller gets to its next call only when the current one returns. *)
Fixpoint exec_calls (cs : list (api_call * nat)) (p : GorkPool)
  : list (outcome ret_val) * GorkPool :=
  match cs with
  | [] => ([], p)
  | (c, seed) :: cs' =>
      let r := exec_call c seed p in
      match result r with
      | Done _ =>
          let rest := exec_calls cs' (final r) in
          (result r :: rest.1, rest.2)
      | _ => ([result r], final r)
      end
  end.

(** An [AddWorker] that returned [nil]. *)
Definition is_successful_add (o : outcome ret_val) : bool :=
  match o with
  | Done (RetErr None) => true
  | _ => false
  end.

(** A removal that returned a worker. *)
Definition is_successful_removal (o : outcome ret_val) : bool :=
  match o with
  | Done (RetWorker (Some _)) => true
  | _ => false
  end.

Definition count_where {A} (f : A → bool) (l : list A) : nat :=
  length (filter (λ x, f x = true) l).

(** What a caller may do with a channel value of the pool's output
    channel, by its static type: a send that the type forbids does not
    compile ([None]). *)
Definition send_result (h : chan_handle) (r : Result) (p : GorkPool)
  : option (outcome GorkPool) :=
  match h_chan h, can_send (h_dir h) with
  | OutputChan, true =>
      Some (outcome_map (λ c, set_outputCh c p) (chan_send r (outputCh p)))
  | _, _ => None
  end.

(** ** Interleaving semantics *)

(** A thread of control and the rest of its code: a caller inside one of
    the API methods, or one of the package's goroutines. *)
Inductive thread : Type :=
| TAddWorker (t : prog (option error))
| TRemove (t : prog (option W))
| TLength (t : prog Z)
| TContains (t : prog bool)
| TAddTask (t : prog unit)
| TOutputCh (t : prog chan_handle)
| TGo (g : goroutine) (t : prog unit).

Definition call_thread (c : api_call) : thread :=
  match c with
  | CallAddWorker id => TAddWorker (AddWorker id)
  | CallRemoveWorker => TRemove RemoveWorker
  | CallRemoveWorkerById id => TRemove (RemoveWorkerById id)
  | CallLength => TLength Length
  | CallContains id => TContains (Contains id)
  | CallAddTask task => TAddTask (AddTask task)
  | CallOutputCh => TOutputCh OutputCh
  end.

Definition go_thread (g : goroutine) : thread := TGo g (goroutine_prog g).

(** One atomic operation of a program.  A program that has returned has
    nothing left to run. *)
Definition step_prog {A} (t : prog A) (seed : nat) (p : GorkPool)
  : outcome (prog A * GorkPool * list event) :=
  match t with
  | Ret _ => Blocked
  | Vis o k =>
      match do_op o seed p with
      | Done (x, p') => Done (k x, p', op_events o)
      | Blocked => Blocked
      | Panic => Panic
      end
  end.

Definition lift_step {A} (wrap : prog A → thread)
    (o : outcome (prog A * GorkPool * list event))
  : outcome (thread * GorkPool * list event) :=
  outcome_map (λ '(t, p, evs), (wrap t, p, evs)) o.

Definition step_thread (th : thread) (seed : nat) (p : GorkPool)
  : outcome (thread * GorkPool * list event) :=
  match th with
  | TAddWorker t => lift_step TAddWorker (step_prog t seed p)
  | TRemove t => lift_step TRemove (step_prog t seed p)
  | TLength t => lift_step TLength (step_prog t seed p)
  | TContains t => lift_step TContains (step_prog t seed p)
  | TAddTask t => lift_step TAddTask (step_prog t seed p)
  | TOutputCh t => lift_step TOutputCh (step_prog t seed p)
  | TGo g t => lift_step (TGo g) (step_prog t seed p)
  end.

(** The goroutines a step starts. *)
Definition spawned (evs : list event) : list thread :=
  omap (λ e, match e with EvGo g => Some (go_thread g) | _ => None end) evs.

(** The whole program: the pool, every thread started so far (a thread
    is named by its index), what happened so far, oldest first, and
    whether some goroutine panicked (which ends a Go program). *)
Record system : Type := mkSys {
  sys_pool : GorkPool;
  sys_threads : list thread;
  sys_trace : list (nat * event);
  sys_crashed : bool;
}.

(** What can happen next: thread [tid] runs its next operation, a caller
    enters an API method on a thread of its own, or the context is
    cancelled from outside. *)
Inductive action : Type :=
| Step (tid : nat) (seed : nat)
| Call (c : api_call)
| Cancel.

Definition sys_step (s : system) (a : action) : system :=
  if sys_crashed s then s else
  match a with
  | Cancel =>
      mkSys (set_ctx true (sys_pool s)) (sys_threads s) (sys_trace s) false
  | Call c =>
      mkSys (sys_pool s) (sys_threads s ++ [call_thread c]) (sys_trace s) false
  | Step tid seed =>
      match sys_threads s !! tid with
      | None => s
      | Some th =>
          match step_thread th seed (sys_pool s) with
          | Done (th', p', evs) =>
              mkSys p'
                    (<[tid := th']> (sys_threads s) ++ spawned evs)
                    (sys_trace s ++ map (pair tid) evs)
                    false
          | Blocked => s
          | Panic =>
              mkSys (sys_pool s) (sys_threads s) (sys_trace s) true
          end
      end
  end.

Definition sys_run (s : system) (sched : list action) : system :=
  foldl sys_step s sched.

(** The program right after [NewGorkPool] returned: thread 0 is the
    shutdown goroutine. *)
Definition init_system (cancelled : bool) (inputCh : Chan Task)
    (outputCh : Chan Result) (createWorkerFn : WorkerFactoryFn) : system :=
  let '(p, gs) := NewGorkPool cancelled inputCh outputCh createWorkerFn in
  mkSys p (map go_thread gs) [] false.

(** ** Program points

    The rest of a thread's code at each point it can be at, for the
    invariants of the interleaving semantics. *)

(** *** [AddWorker] *)

Definition AddWorker_unlock : prog (option error) :=
  do! MutexUnlock in Ret None.
Definition AddWorker_go (w : W) : prog (option error) :=
  do! GoStart (GWorker w) in AddWorker_unlock.
Definition AddWorker_insert (w : W) : prog (option error) :=
  do! MapInsert (ID w) w in AddWorker_go w.
Definition AddWorker_wgadd (w : W) : prog (option error) :=
  do! WgAdd in AddWorker_insert w.
Definition AddWorker_conflict (w : W) : prog (option error) :=
  do! MutexUnlock in Ret (Some (IdConflict (NewErrIdConflict (ID w)))).
Definition AddWorker_lookup (w : W) : prog (option error) :=
  let! found := MapLookup (ID w) in
  match found with
  | Some _ => AddWorker_conflict w
  | None => AddWorker_wgadd w
  end.

Inductive add_pc : Type :=
| AtCreate (id : Id)           (* about to call the factory *)
| AtLock (w : W)               (* about to lock *)
| AtLookup (w : W)             (* locked, about to look [ID w] up *)
| AtConflict (w : W)           (* found [ID w], about to unlock *)
| AtWgAdd (w : W)              (* did not find [ID w] *)
| AtInsert (w : W)
| AtGo (w : W)                 (* [w] is registered *)
| AtUnlock (w : W)
| AtReturn (r : option error).

Definition add_code (pc : add_pc) : prog (option error) :=
  match pc with
  | AtCreate id => AddWorker id
  | AtLock w => AddWorker_locked w
  | AtLookup w => AddWorker_lookup w
  | AtConflict w => AddWorker_conflict w
  | AtWgAdd w => AddWorker_wgadd w
  | AtInsert w => AddWorker_insert w
  | AtGo w => AddWorker_go w
  | AtUnlock w => AddWorker_unlock
  | AtReturn r => Ret r
  end.

(** The thread is inside the critical section. *)
Definition holds_mutex (pc : add_pc) : bool :=
  match pc with
  | AtLookup _ | AtConflict _ | AtWgAdd _ | AtInsert _ | AtGo _
  | AtUnlock _ => true
  | _ => false
  end.

(** The thread looked its identity up and did not find it, and has not
    inserted yet. *)
Definition saw_absent (pc : add_pc) : bool :=
  match pc with AtWgAdd _ | AtInsert _ => true | _ => false end.

(** The thread has inserted its worker. *)
Definition has_inserted (pc : add_pc) : bool :=
  match pc with
  | AtGo _ | AtUnlock _ | AtReturn None => true
  | _ => false
  end.

(** The thread found its identity taken. *)
Definition saw_conflict (pc : add_pc) : bool :=
  match pc with AtConflict _ | AtReturn (Some _) => true | _ => false end.

(** The points a call [AddWorker(id)] can be at when the factory answers
    [w] for [id]. *)
Definition pc_of_call (id : Id) (w : W) (pc : add_pc) : Prop :=
  match pc with
  | AtCreate id' => id' = id
  | AtLock w' | AtLookup w' | AtConflict w' | AtWgAdd w' | AtInsert w'
  | AtGo w' | AtUnlock w' => w' = w
  | AtReturn r =>
      r = None ∨ r = Some (IdConflict (NewErrIdConflict (ID w)))
  end.

(** *** The goroutine of a worker *)

Definition worker_done : prog unit := do! WgDone in Ret tt.

Definition is_worker_thread (th : thread) : Prop :=
  match th with
  | TGo (GWorker w) t =>
      t = worker_goroutine w ∨ t = worker_done ∨ t = Ret tt
  | _ => False
  end.

(** *** Two concurrent calls of [AddWorker] *)

(** Two callers enter [AddWorker] on pool [p]; threads 0 and 1. *)
Definition two_adds (p : GorkPool) (id1 id2 : Id) : system :=
  mkSys p [call_thread (CallAddWorker id1); call_thread (CallAddWorker id2)]
        [] false.

(** A schedule of thread steps only: (thread, seed) pairs. *)
Definition steps (sched : list (nat * nat)) : list action :=
  map (λ '(tid, seed), Step tid seed) sched.

Definition is_insert (te : nat * event) : bool :=
  match te.2 with EvInsert _ _ => true | _ => false end.

(** What two callers of [AddWorker] at points [pc1] and [pc2] know and
    did, against the registry entry [k] they compete for, in pool [p];
    [p0] is the pool they started on. *)
Record race_inv (p0 : GorkPool) (k : Id) (pc1 pc2 : add_pc)
    (p : GorkPool) : Prop := mkRaceInv {
  race_factory : createWorkerFn p = createWorkerFn p0;
  race_mutex : mutex p = holds_mutex pc1 || holds_mutex pc2;
  race_exclusion : holds_mutex pc1 && holds_mutex pc2 = false;
  race_once : has_inserted pc1 && has_inserted pc2 = false;
  race_absent :
    saw_absent pc1 || saw_absent pc2 = true → workers p !! k = None;
  race_present :
    has_inserted pc1 || has_inserted pc2 = true → is_Some (workers p !! k);
  race_untouched :
    has_inserted pc1 || has_inserted pc2 = false →
    workers p !! k = workers p0 !! k;
  race_conflict1 :
    saw_conflict pc1 = true →
    has_inserted pc2 = true ∨ is_Some (workers p0 !! k);
  race_conflict2 :
    saw_conflict pc2 = true →
    has_inserted pc1 = true ∨ is_Some (workers p0 !! k);
  race_fresh1 :
    saw_absent pc1 || has_inserted pc1 = true → workers p0 !! k = None;
  race_fresh2 :
    saw_absent pc2 || has_inserted pc2 = true → workers p0 !! k = None;
}.

Definition inserts_so_far (pc : add_pc) : nat :=
  if has_inserted pc then 1 else 0.

Definition is_lock (te : nat * event) : bool :=
  match te.2 with EvLock => true | _ => false end.

Definition is_unlock (te : nat * event) : bool :=
  match te.2 with EvUnlock => true | _ => false end.

Definition locks_held (pc : add_pc) : nat :=
  if holds_mutex pc then 1 else 0.

(** The caller has called [wg.Add(1)] and not yet started the goroutine
    that will call [Done]. *)
Definition wg_debt (pc : add_pc) : nat :=
  match pc with AtInsert _ | AtGo _ => 1 | _ => 0 end.

(** The worker goroutine has not called [Done] yet. *)
Definition unfinished (th : thread) : nat :=
  match th with
  | TGo (GWorker _) (Vis _ _) => 1
  | _ => 0
  end.

(** How many operations the caller has left, at most. *)
Definition steps_left (pc : add_pc) : nat :=
  match pc with
  | AtCreate _ => 7
  | AtLock _ => 6
  | AtLookup _ => 5
  | AtWgAdd _ => 4
  | AtInsert _ => 3
  | AtGo _ => 2
  | AtUnlock _ | AtConflict _ => 1
  | AtReturn _ => 0
  end.

(** The program of the two callers, with the callers at [pc1] and [pc2]:
    threads 0 and 1 are the callers, the others are the goroutines of the
    workers they registered; nothing has panicked; the WaitGroup counter
    counts the goroutines that have not called [Done]. *)
Definition two_adds_at (p0 : GorkPool) (id1 id2 : Id) (w1 w2 : W)
    (pc1 pc2 : add_pc) (s : system) : Prop :=
  ∃ rest,
    sys_threads s =
      TAddWorker (add_code pc1) :: TAddWorker (add_code pc2) :: rest ∧
    Forall is_worker_thread rest ∧
    pc_of_call id1 w1 pc1 ∧
    pc_of_call id2 w2 pc2 ∧
    race_inv p0 (ID w1) pc1 pc2 (sys_pool s) ∧
    sys_crashed s = false ∧
    wg (sys_pool s) =
      wg p0 + wg_debt pc1 + wg_debt pc2 + sum_list_with unfinished rest ∧
    count_where is_insert (sys_trace s) =
      inserts_so_far pc1 + inserts_so_far pc2 ∧
    count_where is_lock (sys_trace s) =
      count_where is_unlock (sys_trace s)
      + locks_held pc1 + locks_held pc2.

(** *** The shutdown goroutine *)

(** The code left when [n] of the four operations of
    [gracefullyShutdown] are done. *)
Definition shutdown_code (n : nat) : prog unit :=
  match n with
  | 0 => gracefullyShutdown
  | 1 => do! ChanClose InputChan in do! WgWait in
         do! ChanClose OutputChan in Ret tt
  | 2 => do! WgWait in do! ChanClose OutputChan in Ret tt
  | 3 => do! ChanClose OutputChan in Ret tt
  | _ => Ret tt
  end.

(** What thread 0 leaves in the trace if it runs to its end. *)
Definition shutdown_script : list (nat * event) :=
  [(0, EvCtxDone); (0, EvClose InputChan); (0, EvWgWait);
   (0, EvClose OutputChan)].

Definition is_shutdown_event (te : nat * event) : bool :=
  match te.2 with
  | EvCtxDone | EvClose _ | EvWgWait => true
  | _ => false
  end.

(** The part of a trace that is about shutdown: receives from
    [ctx.Done()], channel closes, returns of [wg.Wait()], by any thread. *)
Definition shutdown_events (tr : list (nat * event)) : list (nat * event) :=
  filter (λ te, is_shutdown_event te = true) tr.

(** *** Accounting for the WaitGroup *)

Inductive wg_effect : Type :=
| WgUp        (* wg.Add(1) *)
| WgDown      (* wg.Done(), or handing the Done over to a new goroutine *)
| WgSame
| WgNever.    (* what only the shutdown goroutine does *)

Definition wg_effect_of {X} (o : op X) : wg_effect :=
  match o with
  | WgAdd => WgUp
  | WgDone | GoStart (GWorker _) => WgDown
  | WgWait | CtxDone | ChanClose _ | GoStart GShutdown => WgNever
  | _ => WgSame
  end.

(** [owes d t]: on every path through [t], [d] more units are given back
    to the WaitGroup (by [Done], or by starting the goroutine that will
    call [Done]) than are added to it; and [t] neither waits on the
    WaitGroup nor closes a channel. *)
Fixpoint owes {A} (d : nat) (t : prog A) : Prop :=
  match t with
  | Ret _ => d = 0
  | Vis o k =>
      match wg_effect_of o with
      | WgUp => ∀ x, owes (S d) (k x)
      | WgDown =>
          match d with
          | 0 => False
          | S d' => ∀ x, owes d' (k x)
          end
      | WgSame => ∀ x, owes d (k x)
      | WgNever => False
      end
  end.

(** A thread other than the shutdown goroutine, and what it owes. *)
Definition thread_owes (d : nat) (th : thread) : Prop :=
  match th with
  | TAddWorker t => owes d t
  | TRemove t => owes d t
  | TLength t => owes d t
  | TContains t => owes d t
  | TAddTask t => owes d t
  | TOutputCh t => owes d t
  | TGo (GWorker w) t => is_worker_thread th ∧ owes d t
  | TGo GShutdown _ => False
  end.

(** The state of the whole program, [n] operations into
    [gracefullyShutdown]; [ic0] and [oc0] are the channels as they were
    handed to [NewGorkPool]. *)
Definition shutdown_inv (ic0 : Chan Task) (oc0 : Chan Result)
    (n : nat) (s : system) : Prop :=
  n ≤ 4 ∧
  ∃ rest ds,
    sys_threads s = TGo GShutdown (shutdown_code n) :: rest ∧
    Forall2 thread_owes ds rest ∧
    wg (sys_pool s) = sum_list ds ∧
    shutdown_events (sys_trace s) = take n shutdown_script ∧
    (1 ≤ n → ctx (sys_pool s) = true) ∧
    closed (inputCh (sys_pool s)) = closed ic0 || bool_decide (2 ≤ n) ∧
    closed (outputCh (sys_pool s)) = closed oc0 || bool_decide (n = 4).

(** A worker goroutine that has not returned from [Process]. *)
Definition in_Process (th : thread) : bool :=
  match th with
  | TGo (GWorker _) (Vis o _) =>
      match o with Process _ => true | _ => false end
  | _ => false
  end.

(** C6 as it is worded: whenever a step closes the output channel, no
    worker goroutine started so far is still inside [Process]. *)
Definition output_closes_after_every_worker_returned (s0 : system) : Prop :=
  ∀ (sched : list action) (a : action),
    let s := sys_run s0 sched in
    let s' := sys_step s a in
    closed (outputCh (sys_pool s)) = false →
    closed (outputCh (sys_pool s')) = true →
    ∀ th, th ∈ sys_threads s' → in_Process th = false.

(** ** The registry, as its users see it *)

(** Every worker sits under the key it reports as its identity. *)
Definition registry_keyed (p : GorkPool) : Prop :=
  ∀ k w, workers p !! k = Some w → ID w = k.

(** [AddTask] for each task of a list, in order. *)
Definition add_tasks (seed : nat) (ts : list Task) : list (api_call * nat) :=
  map (λ t, (CallAddTask t, seed)) ts.

(** ** The locking discipline, in any interleaving *)

(** Where a thread stands towards [p.mutex]: outside, or inside a critical
    section, with at most [fuel] operations to go before its unlock, and
    with what it has learnt there about one key of the registry ([true]:
    the key is present). *)
Inductive hold : Type :=
| Free
| Held (fuel : nat) (known : option (Id * bool)).

Definition is_held (h : hold) : bool :=
  match h with Held _ _ => true | Free => false end.

Definition fuel_of (h : hold) : nat :=
  match h with Held n _ => S n | Free => 0 end.

(** What the holder has learnt is true of the registry. *)
Definition knows (p : GorkPool) (h : hold) : Prop :=
  match h with
  | Held _ (Some (k, b)) => bool_decide (is_Some (workers p !! k)) = b
  | _ => True
  end.

(** The rule of each operation.  A thread that stands at [h] and owes the
    WaitGroup [d] units may run [o] ([Some]) or may not ([None]); if it
    may, the answer [x] of the operation tells where it stands next.
    - the registry is read and written inside a critical section only; an
      insert needs to have seen its key absent and stores a worker under
      the identity it reports; a delete needs to have seen its key present;
    - [wg.Add] and [go] are inside a critical section too;
    - the factory, [SignalRemoval], the send of a task, [Process] and
      [wg.Done] are outside;
    - what only the shutdown goroutine does is for no other thread. *)
Definition after {X} (o : op X) (h : hold) (d : nat)
  : option (X → hold * nat) :=
  match o in op X return option (X → hold * nat) with
  | MutexLock =>
      match h, d with
      | Free, 0 => Some (λ _, (Held 4 None, 0))
      | _, _ => None
      end
  | MutexUnlock =>
      match h, d with
      | Held _ _, 0 => Some (λ _, (Free, 0))
      | _, _ => None
      end
  | MapLookup id =>
      match h with
      | Held (S n) _ =>
          Some (λ x, (Held n (Some (id, bool_decide (is_Some x))), d))
      | _ => None
      end
  | MapRangeFirst =>
      match h with
      | Held (S n) _ =>
          Some (λ x, (Held n match x with
                             | Some (k, _) => Some (k, true)
                             | None => None
                             end, d))
      | _ => None
      end
  | MapLen =>
      match h with
      | Held (S n) kn => Some (λ _, (Held n kn, d))
      | _ => None
      end
  | MapInsert id w =>
      match h with
      | Held (S n) (Some (k, false)) =>
          if decide (k = id ∧ ID w = id)
          then Some (λ _, (Held n None, d))
          else None
      | _ => None
      end
  | MapDelete id =>
      match h with
      | Held (S n) (Some (k, true)) =>
          if decide (k = id) then Some (λ _, (Held n None, d)) else None
      | _ => None
      end
  | WgAdd =>
      match h with
      | Held (S n) kn => Some (λ _, (Held n kn, S d))
      | _ => None
      end
  | GoStart (GWorker _) =>
      match h, d with
      | Held (S n) kn, S d' => Some (λ _, (Held n kn, d'))
      | _, _ => None
      end
  | CreateWorker _ | SignalRemoval _ | SendTask _ =>
      match h, d with
      | Free, 0 => Some (λ _, (Free, 0))
      | _, _ => None
      end
  | Process _ =>
      match h with
      | Free => Some (λ _, (Free, d))
      | _ => None
      end
  | WgDone =>
      match h, d with
      | Free, S d' => Some (λ _, (Free, d'))
      | _, _ => None
      end
  | GoStart GShutdown | WgWait | CtxDone | ChanClose _ => None
  end.

(** [disc h d t]: code [t] keeps the rules on every path, from [h] and
    [d] on, and returns outside every critical section, owing nothing. *)
Fixpoint disc {A} (h : hold) (d : nat) (t : prog A) : Prop :=
  match t with
  | Ret _ => h = Free ∧ d = 0
  | Vis o k =>
      match after o h d with
      | Some next => ∀ x, disc (next x).1 (next x).2 (k x)
      | None => False
      end
  end.

(** A caller outside a critical section owes nothing: only the goroutine
    of a worker owes its [wg.Done]. *)
Definition caller_disc {A} (st : hold * nat) (t : prog A) : Prop :=
  disc st.1 st.2 t ∧ (st.1 = Free → st.2 = 0).

(** A thread other than the shutdown goroutine. *)
Definition thread_disc (st : hold * nat) (th : thread) : Prop :=
  match th with
  | TAddWorker t => caller_disc st t
  | TRemove t => caller_disc st t
  | TLength t => caller_disc st t
  | TContains t => caller_disc st t
  | TAddTask t => caller_disc st t
  | TOutputCh t => caller_disc st t
  | TGo (GWorker w) t => is_worker_thread th ∧ disc st.1 st.2 t
  | TGo GShutdown _ => False
  end.

(** *** The same, read off the trace *)

Definition is_delete (te : nat * event) : bool :=
  match te.2 with EvDelete _ => true | _ => false end.

(** Who holds the mutex after an event. *)
Definition holder_step (ho : option nat) (te : nat * event) : option nat :=
  match te.2 with
  | EvLock => Some te.1
  | EvUnlock => None
  | _ => ho
  end.

(** Who holds the mutex at the end of a trace, by its lock and unlock
    events. *)
Definition holder (tr : list (nat * event)) : option nat :=
  foldl holder_step None tr.

(** An event that fits the discipline, when [ho] holds the mutex: a lock
    finds the mutex free; an unlock, a write of the registry, [wg.Add] and
    the start of a worker's goroutine are by the holder; everything else
    ([SignalRemoval], a send, the return of [Process], [wg.Done], what the
    shutdown goroutine does) is by a thread that does not hold the mutex. *)
Definition allowed (ho : option nat) (te : nat * event) : bool :=
  match te.2 with
  | EvLock => bool_decide (ho = None)
  | EvUnlock | EvInsert _ _ | EvDelete _ | EvWgAdd | EvGo (GWorker _) =>
      bool_decide (ho = Some te.1)
  | _ => bool_decide (ho ≠ Some te.1)
  end.

Fixpoint disciplined (ho : option nat) (tr : list (nat * event)) : bool :=
  match tr with
  | [] => true
  | te :: tr' => allowed ho te && disciplined (holder_step ho te) tr'
  end.

(** *** The next operation of a thread *)

Definition touches_registry {X} (o : op X) : bool :=
  match o with
  | MapLookup _ | MapInsert _ _ | MapDelete _ | MapRangeFirst | MapLen => true
  | _ => false
  end.


Definition next_op {A} (f : ∀ X, op X → bool) (t : prog A) : bool :=
  match t with
  | Ret _ => false
  | Vis o _ => f _ o
  end.

Definition thread_next (f : ∀ X, op X → bool) (th : thread) : bool :=
  match th with
  | TAddWorker t => next_op f t
  | TRemove t => next_op f t
  | TLength t => next_op f t
  | TContains t => next_op f t
  | TAddTask t => next_op f t
  | TOutputCh t => next_op f t
  | TGo _ t => next_op f t
  end.

(** The thread's next operation reads or writes [p.workers]. *)
Definition about_to_access (th : thread) : bool :=
  thread_next (@touches_registry) th.


(** The thread has returned. *)
Definition returned (th : thread) : bool :=
  match th with
  | TAddWorker (Ret _) | TRemove (Ret _) | TLength (Ret _)
  | TContains (Ret _) | TAddTask (Ret _) | TOutputCh (Ret _)
  | TGo _ (Ret _) => true
  | _ => false
  end.

(** *** The state of the whole program *)

(** Thread [S j] (thread 0 is the shutdown goroutine) stands at [st]: it
    is inside a critical section exactly if the trace says it holds the
    mutex, what it has learnt there is true, and its unlock is at most
    five operations away. *)
Definition stands (ho : option nat) (p : GorkPool) (j : nat)
    (st : hold * nat) : Prop :=
  is_held st.1 = bool_decide (ho = Some (S j)) ∧
  knows p st.1 ∧
  fuel_of st.1 ≤ 5.

(** The program, with the threads other than the shutdown goroutine
    standing at [sts]. *)
Definition disc_inv_with (sts : list (hold * nat)) (s : system) : Prop :=
  Forall2 thread_disc sts (tail (sys_threads s)) ∧
  (∀ j st, sts !! j = Some st →
           stands (holder (sys_trace s)) (sys_pool s) j st) ∧
  (∀ j, holder (sys_trace s) = Some j → 0 < j ≤ length sts) ∧
  mutex (sys_pool s) = bool_decide (is_Some (holder (sys_trace s))) ∧
  wg (sys_pool s) = sum_list_with snd sts ∧
  registry_keyed (sys_pool s) ∧
  size (workers (sys_pool s)) + count_where is_delete (sys_trace s) =
    count_where is_insert (sys_trace s) ∧
  disciplined None (sys_trace s) = true.

Definition disc_inv (s : system) : Prop :=
  ∃ sts, disc_inv_with sts s.

End Pool.

Arguments Ret {Id Task FErr W A} a.
Arguments Vis {Id Task FErr W A X} o k.
Arguments mkRun {Id _ _ Task Result FErr W A} result final events.
Arguments result {Id _ _ Task Result FErr W A} r.
Arguments final {Id _ _ Task Result FErr W A} r.
Arguments events {Id _ _ Task Result FErr W A} r.

(** ** The pool of the package's tests: [int] ids, tasks and results *)

(** [testWorker]: its [input] and [output] fields refer to the pool's two
    channels; its [done] channel is private to [Process] and
    [SignalRemoval]. *)
Record testWorker : Type := mkTestWorker {
  tw_id : Z;
  tw_input : chan_handle;
  tw_output : chan_handle;
}.

Definition newTestWorker (id : Z) (input output : chan_handle) : testWorker :=
  {| tw_id := id; tw_input := input; tw_output := output |}.

#[export] Instance testWorker_GorkWorker : GorkWorker (Id := Z) testWorker :=
  {| ID := tw_id |}.

(** The tests' factory never fails.  It passes the channels [setupPool]
    made, which are the pool's, not its own arguments. *)
Definition testFactory : @WorkerFactoryFn Z Empty_set testWorker :=
  λ id ic oc, inl (newTestWorker id inputHandle outputHandle).

Abbreviation testPool := (@GorkPool Z _ _ Z Z Empty_set testWorker).

(** [setupPool]: a fresh cancellable context and two channels of capacity
    10. *)
Definition setupPool : testPool * list goroutine :=
  NewGorkPool false (mkChan [] 10 false) (mkChan [] 10 false) testFactory.

(** The first ten ids, as [TestRemoveWorkerById] and
    [TestGracefullyShutdown] use them. *)
Definition ten_ids : list Z := [0; 1; 2; 3; 4; 5; 6; 7; 8; 9]%Z.

(** [for i := 0; i < 10; i++ { pool.AddWorker(i) }] *)
Definition add_ten (seed : nat) : list (@api_call Z Z * nat) :=
  map (λ i, (CallAddWorker i, seed)) ten_ids.

(** The test pool after [AddWorker(id)]. *)
Definition pool_with (id : Z) : testPool :=
  final (exec (AddWorker id) 0 setupPool.1).

(** The program of the tests, right after [setupPool]. *)
Definition test_system : @system Z _ _ Z Z Empty_set testWorker :=
  init_system false (mkChan [] 10 false) (mkChan [] 10 false) testFactory.

(** Two callers of [AddWorker(5)] taking turns, ten turns each. *)
Definition taking_turns : list (nat * nat) :=
  concat (replicate 10 [(0, 0); (1, 0)]).

(** A schedule in which [AddWorker(1)] is called during shutdown: the
    context is cancelled, the shutdown goroutine closes the input channel
    and gets through [wg.Wait()] (no worker yet); then a caller runs
    [AddWorker(1)] up to and including its [go] statement. *)
Definition late_add : list (@action Z Z) :=
  [Cancel; Step 0 0; Step 0 0; Step 0 0;
   Call (CallAddWorker 1%Z);
   Step 1 0; Step 1 0; Step 1 0; Step 1 0; Step 1 0; Step 1 0].

(** A shutdown with one worker: [AddWorker(1)] runs to its end, the context
    is cancelled, the shutdown goroutine closes the input channel and then
    tries [wg.Wait()] (too early: the step does nothing); the worker returns
    from [Process] and calls [Done]; the shutdown goroutine gets through
    [wg.Wait()] and closes the output channel. *)
Definition graceful : list (@action Z Z) :=
  [Call (CallAddWorker 1%Z);
   Step 1 0; Step 1 0; Step 1 0; Step 1 0; Step 1 0; Step 1 0; Step 1 0;
   Cancel; Step 0 0; Step 0 0; Step 0 0;
   Step 2 0; Step 2 0;
   Step 0 0; Step 0 0].

(** A factory whose workers report another identity than the one asked
    for. *)
Definition nextIdFactory : @WorkerFactoryFn Z Empty_set testWorker :=
  λ id ic oc, inl (newTestWorker (id + 1) ic oc).

(** A pool on that factory, after [AddWorker(0)]: the worker is registered
    under 1. *)
Definition nextIdPool : testPool :=
  final (exec (AddWorker 0%Z) 0
           (NewGorkPool false (mkChan [] 10 false) (mkChan [] 10 false)
                        nextIdFactory).1).

(** A caller inside [Length], between its lock and its unlock. *)
Definition inside_Length : list (@action Z Z) :=
  [Call CallLength; Step 1 0].


(** * Facts *)

Section SequentialFacts.

Context {Id : Type} `{Countable Id} {Task Result FErr W : Type}.
Context `{!GorkWorker (Id := Id) W}.

Local Abbreviation pool := (@GorkPool Id _ _ Task Result FErr W).
Local Abbreviation err := (@error Id FErr).
Local Abbreviation ev := (@event Id Task W).

Implicit Types (p : pool) (m : gmap Id W) (id k : Id) (w : W) (seed : nat).

(** ** The first entry of a range *)

Lemma range_first_None seed m : range_first seed m = None ↔ m = ∅.
Proof.
  unfold range_first. rewrite lookup_ge_None, length_map_to_list. split.
  - intros Hle. apply map_size_empty_iff.
    destruct (decide (size m = 0)) as [|Hne]; [done|].
    pose proof (Nat.mod_upper_bound seed (size m) Hne). lia.
  - intros ->. rewrite map_size_empty. simpl. lia.
Qed.

Lemma range_first_Some seed m k w :
  range_first seed m = Some (k, w) → m !! k = Some w.
Proof.
  unfold range_first. intros Hl.
  by apply elem_of_map_to_list, list_elem_of_lookup_2 with (seed `mod` size m).
Qed.


(** ** What one call does, run alone on a pool whose mutex is free *)

Lemma exec_AddWorker id seed p :
  mutex p = false →
  exec (AddWorker id) seed p =
    match create_worker p id with
    | inr e => mkRun (Done (Some e)) p []
    | inl w =>
        match workers p !! ID w with
        | Some _ =>
            mkRun (Done (Some (IdConflict (NewErrIdConflict (ID w)))))
                  p [EvLock; EvUnlock]
        | None =>
            mkRun (Done None)
                  (set_wg (S (wg p))
                     (set_workers (<[ID w := w]> (workers p)) p))
                  [EvLock; EvWgAdd; EvInsert (ID w) w; EvGo (GWorker w);
                   EvUnlock]
        end
    end.
Proof.
  destruct p as [mu ws fn n c ic oc]. simpl. intros ->.
  unfold create_worker. cbn.
  destruct (fn id inputHandle outputHandle) as [w|e]; [|done]. cbn.
  by destruct (ws !! ID w).
Qed.

Lemma exec_RemoveWorker seed p :
  mutex p = false →
  exec RemoveWorker seed p =
    match range_first seed (workers p) with
    | Some (k, w) =>
        mkRun (Done (Some w)) (set_workers (delete k (workers p)) p)
              [EvLock; EvDelete k; EvUnlock; EvSignalRemoval w]
    | None => mkRun (Done None) p [EvLock; EvUnlock]
    end.
Proof.
  destruct p as [mu ws fn n c ic oc]. simpl. intros ->. cbn.
  by destruct (range_first seed ws) as [[k w]|].
Qed.

Lemma exec_RemoveWorkerById id seed p :
  mutex p = false →
  exec (RemoveWorkerById id) seed p =
    match workers p !! id with
    | Some w =>
        mkRun (Done (Some w)) (set_workers (delete id (workers p)) p)
              [EvLock; EvDelete id; EvUnlock; EvSignalRemoval w]
    | None => mkRun (Done None) p [EvLock; EvUnlock]
    end.
Proof.
  destruct p as [mu ws fn n c ic oc]. simpl. intros ->. cbn.
  by destruct (ws !! id).
Qed.

Lemma exec_Length seed p :
  mutex p = false →
  exec Length seed p =
    mkRun (Done (Z.of_nat (size (workers p)))) p [EvLock; EvUnlock].
Proof. destruct p. simpl. by intros ->. Qed.

Lemma exec_Contains id seed p :
  mutex p = false →
  exec (Contains id) seed p =
    mkRun (Done (bool_decide (is_Some (workers p !! id)))) p
          [EvLock; EvUnlock].
Proof. destruct p. simpl. by intros ->. Qed.

Lemma exec_OutputCh seed p :
  exec OutputCh seed p =
    mkRun (Done outputHandle) p [].
Proof. done. Qed.

(** [exec] runs a program one [step_prog] after the other. *)
Lemma exec_step {A} (t t' : @prog Id Task FErr W A) seed p p' evs :
  step_prog t seed p = Done (t', p', evs) →
  exec t seed p =
    mkRun (result (exec t' seed p')) (final (exec t' seed p'))
          (evs ++ events (exec t' seed p')).
Proof.
  destruct t as [a|X o k]; simpl; [done|].
  destruct (do_op o seed p) as [[x q]| |]; [|done..].
  by intros [= <- <- <-].
Qed.

(** A call leaves the mutex free, whatever its outcome. *)
Lemma exec_call_mutex c seed p :
  mutex p = false → mutex (final (exec_call c seed p)) = false.
Proof.
  intros Hmu. destruct c; cbv [exec_call run_map]; cbn [final].
  - rewrite exec_AddWorker by done. destruct (create_worker p id) as [w|]; [|done].
    by destruct (workers p !! ID w).
  - rewrite exec_RemoveWorker by done.
    by destruct (range_first seed (workers p)) as [[k w]|].
  - rewrite exec_RemoveWorkerById by done. by destruct (workers p !! id).
  - by rewrite exec_Length.
  - by rewrite exec_Contains.
  - destruct p as [mu ws fn n c ic oc]. simpl in *.
    unfold chan_send. destruct (closed ic); [done|].
    by case_decide.
  - done.
Qed.

End SequentialFacts.

Section RegistryContract.

Context {Id : Type} `{Countable Id} {Task Result FErr W : Type}.
Context `{!GorkWorker (Id := Id) W}.

Local Abbreviation pool := (@GorkPool Id _ _ Task Result FErr W).
Local Abbreviation call := (@api_call Id Task).

Implicit Types (p : pool) (m : gmap Id W) (id k : Id) (w : W) (seed : nat).
Implicit Types (c : call) (cs : list (call * nat)).

Lemma size_delete_present m k w :
  m !! k = Some w → size m = S (size (delete k m)).
Proof.
  intros Hk. rewrite map_size_delete_Some by done.
  pose proof (map_size_ne_0_lookup_2 m k (mk_is_Some _ _ Hk)). lia.
Qed.

(** One call changes the size of the registry by what it reports. *)
Lemma exec_call_size c seed p :
  mutex p = false →
  let r := exec_call c seed p in
  Z.of_nat (size (workers (final r))) =
    (Z.of_nat (size (workers p))
     + (if is_successful_add (result r) then 1 else 0)
     - (if is_successful_removal (result r) then 1 else 0))%Z.
Proof.
  intros Hmu. destruct c; cbv [exec_call run_map]; cbn [final result].
  - rewrite exec_AddWorker by done.
    destruct (create_worker p id) as [w|]; [|simpl; lia].
    destruct (workers p !! ID w) eqn:Hw; simpl; [lia|].
    rewrite map_size_insert_None by done. lia.
  - rewrite exec_RemoveWorker by done.
    destruct (range_first seed (workers p)) as [[k w]|] eqn:Hr; simpl; [|lia].
    apply range_first_Some in Hr.
    rewrite (size_delete_present _ _ _ Hr). lia.
  - rewrite exec_RemoveWorkerById by done.
    destruct (workers p !! id) eqn:Hw; simpl; [|lia].
    rewrite (size_delete_present _ _ _ Hw). lia.
  - rewrite exec_Length by done. simpl. lia.
  - rewrite exec_Contains by done. simpl. lia.
  - destruct p as [mu ws fn n cx ic oc]. simpl.
    unfold chan_send. destruct (closed ic); [simpl; lia|].
    case_decide; simpl; lia.
  - simpl. lia.
Qed.

Lemma count_where_cons {A} (f : A → bool) x l :
  count_where f (x :: l) = (if f x then 1 else 0) + count_where f l.
Proof.
  unfold count_where. rewrite filter_cons.
  destruct (f x); by case_decide.
Qed.

(** The size of the registry after any sequence of calls. *)
Lemma exec_calls_size cs p :
  mutex p = false →
  mutex (exec_calls cs p).2 = false ∧
  Z.of_nat (size (workers (exec_calls cs p).2)) =
    (Z.of_nat (size (workers p))
     + Z.of_nat (count_where is_successful_add (exec_calls cs p).1)
     - Z.of_nat (count_where is_successful_removal (exec_calls cs p).1))%Z.
Proof.
  revert p. induction cs as [|[c seed] cs IH]; intros p Hmu.
  - simpl. split; [done|]. unfold count_where. simpl. lia.
  - pose proof (exec_call_size c seed p Hmu) as Hsz.
    pose proof (exec_call_mutex c seed p Hmu) as Hmu'.
    simpl in Hsz. simpl.
    destruct (result (exec_call c seed p)) as [v| |] eqn:Hres.
    + destruct (IH _ Hmu') as [IH1 IH2]. simpl. split; [done|].
      rewrite IH2, Hsz, !count_where_cons.
      destruct (is_successful_add (Done v)),
        (is_successful_removal (Done v)); lia.
    + simpl. split; [done|]. rewrite Hsz, !count_where_cons.
      unfold count_where. simpl. lia.
    + simpl. split; [done|]. rewrite Hsz, !count_where_cons.
      unfold count_where. simpl. lia.
Qed.

(** C1.  From a new pool, after any sequence of AddWorker, RemoveWorker and
    RemoveWorkerById calls (other calls may be mixed in, and the identities
    need not even be distinct), and at every point [n] of the sequence,
    Length() returns the number of AddWorker calls that returned nil minus
    the number of removal calls that returned a worker. *)
Theorem Length_is_adds_minus_removals
    (cancelled : bool) (ic : Chan Task) (oc : Chan Result)
    (fn : @WorkerFactoryFn Id FErr W) cs (n seed : nat) :
  let p0 := (NewGorkPool cancelled ic oc fn).1 in
  let '(outs, pn) := exec_calls (take n cs) p0 in
  result (exec Length seed pn) =
    Done (Z.of_nat (count_where is_successful_add outs)
          - Z.of_nat (count_where is_successful_removal outs))%Z.
Proof.
  intros p0.
  destruct (exec_calls_size (take n cs) p0 eq_refl) as [Hmu Hsz].
  destruct (exec_calls (take n cs) p0) as [outs pn]. cbn [fst snd] in *.
  rewrite exec_Length by done. cbn [result]. f_equal.
  rewrite Hsz. subst p0. cbn [NewGorkPool fst workers].
  rewrite map_size_empty. lia.
Qed.

(** C2.  AddWorker always returns, and returns an error in two cases only:
    the factory's error, handed on as it is, or ErrIdConflict for an
    identity already in the registry.  When it returns an error the pool is
    exactly as before (so Length() and Contains(k) answer as before, for
    every k, and the WaitGroup counter is the same), nothing was added to
    the WaitGroup and no goroutine was started. *)
Theorem AddWorker_failure_leaves_pool_untouched id seed p :
  mutex p = false →
  let r := exec (AddWorker id) seed p in
  (∃ ret, result r = Done ret) ∧
  (∀ e, result r = Done (Some e) ↔
        create_worker p id = inr e ∨
        ∃ w, create_worker p id = inl w ∧ is_Some (workers p !! ID w) ∧
             e = IdConflict (NewErrIdConflict (ID w))) ∧
  (∀ e, result r = Done (Some e) →
        final r = p ∧
        (∀ s, result (exec Length s (final r)) = result (exec Length s p)) ∧
        (∀ s k, result (exec (Contains k) s (final r)) =
                result (exec (Contains k) s p)) ∧
        wg (final r) = wg p ∧
        (EvWgAdd ∉ events r) ∧
        spawned (FErr := FErr) (events r) = []).
Proof.
  intros Hmu r. subst r. rewrite exec_AddWorker by done.
  destruct (create_worker p id) as [w|e0] eqn:Hfn.
  - destruct (workers p !! ID w) as [w'|] eqn:Hw; cbn [result final events].
    + split; [eauto|]. split.
      * intros e. split.
        -- intros [= <-]. right. exists w. eauto.
        -- intros [[=]|(w0 & [= <-] & _ & ->)]. done.
      * intros e _. repeat split; try done.
        intros Hin. repeat (apply elem_of_cons in Hin as [[=]|Hin]).
        by apply elem_of_nil in Hin.
    + split; [eauto|]. split.
      * intros e. split; [done|].
        intros [[=]|(w0 & [= <-] & [? Hsome] & _)]. congruence.
      * intros e [=].
  - cbn [result final events]. split; [eauto|]. split.
    + intros e. split.
      * intros [= <-]. by left.
      * intros [[= <-]|(w0 & [=] & _)]. done.
    + intros e _. repeat split; try done.
      intros Hin. by apply elem_of_nil in Hin.
Qed.

(** C3.  RemoveWorkerById(id) on an absent id returns nil and leaves the
    pool exactly as it was, without signalling anyone; on a present id it
    returns the worker registered under id, and Contains(id) is false
    afterwards. *)
Theorem RemoveWorkerById_contract id seed p :
  mutex p = false →
  let r := exec (RemoveWorkerById id) seed p in
  (workers p !! id = None →
     result r = Done None ∧ final r = p ∧ events r = [EvLock; EvUnlock]) ∧
  (∀ w, workers p !! id = Some w →
     result r = Done (Some w) ∧
     ∀ s, result (exec (Contains id) s (final r)) = Done false).
Proof.
  intros Hmu r. subst r. rewrite exec_RemoveWorkerById by done. split.
  - by intros ->.
  - intros w ->. split; [done|]. intros s.
    rewrite exec_Contains by done. cbn [result final workers set_workers].
    by rewrite lookup_delete_eq.
Qed.

(** C4.  RemoveWorker on an empty pool returns nil (it neither panics nor
    blocks, and its signature has no error), the pool is as before and
    Length() is 0 before and after.  Neither removal ever fails: both
    always return, and RemoveWorkerById of an absent id returns nil and
    leaves the pool as it was. *)
Theorem removing_nothing_is_not_an_error seed p :
  mutex p = false →
  (workers p = ∅ →
     let r := exec RemoveWorker seed p in
     result r = Done None ∧ final r = p ∧
     ∀ s, result (exec Length s p) = Done 0%Z ∧
          result (exec Length s (final r)) = Done 0%Z) ∧
  (∀ id, workers p !! id = None →
     let r := exec (RemoveWorkerById id) seed p in
     result r = Done None ∧ final r = p) ∧
  (∃ o, result (exec RemoveWorker seed p) = Done o) ∧
  (∀ id, ∃ o, result (exec (RemoveWorkerById id) seed p) = Done o).
Proof.
  intros Hmu. split; [|split; [|split]].
  - intros Hempty r. subst r. rewrite exec_RemoveWorker by done.
    assert (range_first seed (workers p) = None) as ->
        by by apply range_first_None.
    cbn [result final]. split; [done|]. split; [done|]. intros s.
    rewrite exec_Length by done. cbn [result].
    by rewrite Hempty, map_size_empty.
  - intros id Hid r. subst r. rewrite exec_RemoveWorkerById by done.
    by rewrite Hid.
  - rewrite exec_RemoveWorker by done.
    destruct (range_first seed (workers p)) as [[k w]|]; eauto.
  - intros id. rewrite exec_RemoveWorkerById by done.
    destruct (workers p !! id); eauto.
Qed.

(** C7.  A removal that returns a worker [w] deleted [w]'s entry, and what
    it did is, in this order: lock, delete the entry, unlock, and then one
    SignalRemoval, on [w].  A removal that returns nil (empty pool, absent
    id) only locked and unlocked: no SignalRemoval at all. *)
Theorem removal_signals_the_removed_worker_once seed p :
  mutex p = false →
  (let r := exec RemoveWorker seed p in
   match result r with
   | Done (Some w) =>
       ∃ k, workers p !! k = Some w ∧
            workers (final r) = delete k (workers p) ∧
            events r = [EvLock; EvDelete k; EvUnlock; EvSignalRemoval w]
   | Done None => workers p = ∅ ∧ events r = [EvLock; EvUnlock]
   | _ => False
   end) ∧
  (∀ id,
     let r := exec (RemoveWorkerById id) seed p in
     match result r with
     | Done (Some w) =>
         workers p !! id = Some w ∧
         workers (final r) = delete id (workers p) ∧
         events r = [EvLock; EvDelete id; EvUnlock; EvSignalRemoval w]
     | Done None => workers p !! id = None ∧ events r = [EvLock; EvUnlock]
     | _ => False
     end).
Proof.
  intros Hmu. split.
  - rewrite exec_RemoveWorker by done.
    destruct (range_first seed (workers p)) as [[k w]|] eqn:Hr;
      cbn [result final events].
    + exists k. split; [by eapply range_first_Some|done].
    + split; [by eapply range_first_None|done].
  - intros id. rewrite exec_RemoveWorkerById by done.
    by destruct (workers p !! id) eqn:Hw.
Qed.

(** C8, as the code has it.  OutputCh() hands out the pool's output channel
    at type [chan Result], without touching the pool: the caller may
    receive from it, and the type lets the caller send into it and close
    it as well. *)
Theorem OutputCh_is_a_bidirectional_handle seed p :
  let r := exec OutputCh seed p in
  ∃ h, result r = Done h ∧ final r = p ∧ events r = [] ∧
       h_chan h = OutputChan ∧ h_dir h = BothDir ∧
       can_recv (h_dir h) = true ∧
       can_send (h_dir h) = true ∧
       can_close (h_dir h) = true ∧
       ∀ v, send_result h v p =
            Some (outcome_map (λ ch, set_outputCh ch p)
                              (chan_send v (outputCh p))).
Proof. eexists. by repeat split. Qed.

(** C9, as the code has it.  When the factory returns worker [w] for
    AddWorker(id), the check, the insertion and the error all use
    [ID w]: if [ID w] is free the call returns nil, registers [w] under
    [ID w], Contains(ID w) is true, and for [id] other than [ID w]
    Contains(id) answers what it answered before the call (false when
    [id] was not registered); if [ID w] is taken the call
    returns ErrIdConflict carrying [ID w] and the pool is as before. *)
Theorem AddWorker_uses_reported_identity id seed p w :
  mutex p = false →
  create_worker p id = inl w →
  let r := exec (AddWorker id) seed p in
  (workers p !! ID w = None →
     result r = Done None ∧
     workers (final r) = <[ID w := w]> (workers p) ∧
     (∀ s, result (exec (Contains (ID w)) s (final r)) = Done true) ∧
     (ID w ≠ id →
        (∀ s, result (exec (Contains id) s (final r)) =
              result (exec (Contains id) s p)) ∧
        (workers p !! id = None →
         ∀ s, result (exec (Contains id) s (final r)) = Done false))) ∧
  (is_Some (workers p !! ID w) →
     result r = Done (Some (IdConflict (NewErrIdConflict (ID w)))) ∧
     final r = p).
Proof.
  intros Hmu Hfn r. subst r. rewrite exec_AddWorker, Hfn by done. split.
  - intros ->. cbn [result final workers set_wg set_workers].
    split; [done|]. split; [done|]. split.
    + intros s. rewrite exec_Contains by done.
      cbn [result workers set_wg set_workers]. by rewrite lookup_insert_eq.
    + intros Hne.
      assert (∀ s, result (exec (Contains id) s
                     (set_wg (S (wg p))
                        (set_workers (<[ID w:=w]> (workers p)) p))) =
                   result (exec (Contains id) s p)) as Hsame.
      { intros s. rewrite !exec_Contains by done.
        cbn [result workers set_wg set_workers].
        by rewrite lookup_insert_ne. }
      split; [done|]. intros Hid s. rewrite Hsame, exec_Contains by done.
      cbn [result]. by rewrite Hid.
  - intros [w' ->]. done.
Qed.

End RegistryContract.

Section ThreadFacts.

Context {Id : Type} `{Countable Id} {Task Result FErr W : Type}.
Context `{!GorkWorker (Id := Id) W}.

Local Abbreviation pool := (@GorkPool Id _ _ Task Result FErr W).
Local Abbreviation sys := (@system Id _ _ Task Result FErr W).
Local Abbreviation thr := (@thread Id Task FErr W).

Implicit Types (p : pool) (s : sys) (w : W) (seed tid : nat) (th : thr).

Lemma count_where_app {A} (f : A → bool) (l1 l2 : list A) :
  count_where f (l1 ++ l2) = count_where f l1 + count_where f l2.
Proof. unfold count_where. by rewrite filter_app, length_app. Qed.

Lemma sum_list_with_insert {A} (f : A → nat) (l : list A) i x y :
  l !! i = Some x →
  sum_list_with f (<[i := y]> l) + f x = sum_list_with f l + f y.
Proof.
  revert i. induction l as [|z l IH]; intros [|i] Hi; simpl in *; try done.
  - injection Hi as ->. lia.
  - specialize (IH _ Hi). lia.
Qed.

(** A worker's goroutine touches neither the mutex nor the registry. *)
Lemma worker_thread_step th seed p th' p' evs :
  is_worker_thread th →
  step_thread th seed p = Done (th', p', evs) →
  is_worker_thread th' ∧
  mutex p' = mutex p ∧ workers p' = workers p ∧
  createWorkerFn p' = createWorkerFn p ∧
  spawned (FErr := FErr) evs = [] ∧
  ∀ tid, count_where is_insert (map (pair tid) evs) = 0 ∧
         count_where is_lock (map (pair tid) evs) = 0 ∧
         count_where is_unlock (map (pair tid) evs) = 0.
Proof.
  destruct th as [| | | | | |[w|] t]; try done.
  intros [->|[->| ->]] Hstep; simpl in Hstep.
  - injection Hstep as <- <- <-. repeat split. right. by left.
  - destruct (wg p) eqn:Hwg; [done|].
    injection Hstep as <- <- <-. repeat split. right. by right.
  - done.
Qed.

(** It calls [Done] once, and does not panic as long as the counter
    counts it. *)
Lemma worker_thread_wg th seed p :
  is_worker_thread th →
  unfinished th ≤ wg p →
  match step_thread th seed p with
  | Done (th', p', _) => wg p' + unfinished th = wg p + unfinished th'
  | Blocked => True
  | Panic => False
  end.
Proof.
  destruct th as [| | | | | |[w|] t]; try done.
  intros [->|[->| ->]] Hwg; simpl in *; try done.
  destruct (wg p); simpl; lia.
Qed.

Lemma steps_app (sched1 sched2 : list (nat * nat)) :
  steps (sched1 ++ sched2) =
    steps (Id := Id) (Task := Task) sched1 ++ steps sched2.
Proof. apply map_app. Qed.

Lemma sys_run_app s (acts1 acts2 : list (@action Id Task)) :
  sys_run s (acts1 ++ acts2) = sys_run (sys_run s acts1) acts2.
Proof. apply foldl_app. Qed.

End ThreadFacts.

Section TwoAdds.

Context {Id : Type} `{Countable Id} {Task Result FErr W : Type}.
Context `{!GorkWorker (Id := Id) W}.

Local Abbreviation pool := (@GorkPool Id _ _ Task Result FErr W).
Local Abbreviation sys := (@system Id _ _ Task Result FErr W).
Local Abbreviation thr := (@thread Id Task FErr W).
Local Abbreviation pc := (@add_pc Id FErr W).

Implicit Types (p : pool) (s : sys) (id k : Id) (w : W) (seed tid : nat).
Implicit Types (th : thr) (pc : pc).

Lemma race_inv_sym (p0 : pool) k pc1 pc2 p :
  race_inv p0 k pc1 pc2 p → race_inv p0 k pc2 pc1 p.
Proof.
  intros [Hfn Hmu Hex Honce Hab Hpr Hun Hc1 Hc2 Hf1 Hf2]. split; try done.
  - by rewrite orb_comm.
  - by rewrite andb_comm.
  - by rewrite andb_comm.
  - by rewrite orb_comm.
  - by rewrite orb_comm.
  - by rewrite orb_comm.
Qed.

(** Closes a field of the invariant from the fields it had before. *)
Ltac race_close :=
  simpl in *; intros;
  repeat match goal with
  | Hx : ?a = ?b → _, Hy : ?a = ?b |- _ => specialize (Hx Hy)
  | Hx : true = true → _ |- _ => specialize (Hx eq_refl)
  | Hx : false = false → _ |- _ => specialize (Hx eq_refl)
  end;
  first [ done | congruence | by left | by right | by eauto | idtac ].

(** One step of a caller inside [AddWorker], next to another such caller:
    it moves to the next point and the invariant goes with it. *)
Lemma add_code_step (p0 : pool) id w pc1 pc2 seed tid p t' p' evs :
  create_worker p0 id = inl w →
  pc_of_call id w pc1 →
  race_inv p0 (ID w) pc1 pc2 p →
  step_prog (add_code pc1) seed p = Done (t', p', evs) →
  ∃ pc1',
    t' = add_code pc1' ∧
    pc_of_call id w pc1' ∧
    race_inv p0 (ID w) pc1' pc2 p' ∧
    Forall is_worker_thread (spawned (FErr := FErr) evs) ∧
    steps_left pc1' < steps_left pc1 ∧
    wg p' + wg_debt pc1 =
      wg p + wg_debt pc1'
      + sum_list_with unfinished (spawned (FErr := FErr) evs) ∧
    inserts_so_far pc1 + count_where is_insert (map (pair tid) evs) =
      inserts_so_far pc1' ∧
    locks_held pc1 + count_where is_lock (map (pair tid) evs) =
      locks_held pc1' + count_where is_unlock (map (pair tid) evs).
Proof.
  intros Hfn0 Hcall [Hfn Hmu Hex Honce Hab Hpr Hun Hc1 Hc2 Hf1 Hf2] Hstep.
  destruct pc1 as [id'|w'|w'|w'|w'|w'|w'|w'|r]; simpl in Hcall;
    try subst id'; try subst w'.
  - (* the factory *)
    simpl in Hstep. unfold create_worker in Hstep, Hfn0.
    rewrite Hfn, Hfn0 in Hstep.
    injection Hstep as <- <- <-. exists (AtLock w).
    repeat split; simpl; try done; lia.
  - (* Lock *)
    simpl in Hstep. destruct (mutex p) eqn:Hmp; [done|].
    injection Hstep as <- <- <-. exists (AtLookup w).
    simpl in *. symmetry in Hmu.
    repeat split; simpl; try done; lia.
  - (* the lookup *)
    simpl in Hstep. injection Hstep as <- <- <-.
    simpl in *.
    destruct (workers p !! ID w) as [w'|] eqn:Hw.
    + exists (AtConflict w).
      repeat split; simpl; try done; try lia; race_close.
      destruct (has_inserted pc2) eqn:Hi; [by left|right].
      rewrite <- Hun by done. eauto.
    + exists (AtWgAdd w).
      repeat split; simpl; try done; try lia; race_close.
      destruct (has_inserted pc2); [|by rewrite <- Hun].
      by destruct Hpr.
  - (* Unlock on the conflict path *)
    simpl in Hstep. destruct (mutex p) eqn:Hmp; [|done].
    injection Hstep as <- <- <-.
    exists (AtReturn (Some (IdConflict (NewErrIdConflict (ID w))))).
    simpl in *. repeat split; simpl; try done; try lia; race_close.
  - (* wg.Add *)
    simpl in Hstep. injection Hstep as <- <- <-. exists (AtInsert w).
    repeat split; simpl; try done; try lia; race_close.
  - (* the insert *)
    simpl in Hstep. injection Hstep as <- <- <-. exists (AtGo w).
    simpl in *. repeat split; simpl; try done; try lia; race_close.
    + destruct (has_inserted pc2); [|done].
      rewrite Hab in Hpr. by destruct Hpr.
    + exfalso. by destruct pc2.
    + rewrite lookup_insert_eq. eauto.
  - (* go *)
    simpl in Hstep. injection Hstep as <- <- <-. exists (AtUnlock w).
    repeat split; simpl; try done; try lia; race_close.
    apply Forall_cons_2; [by left|apply Forall_nil_2].
  - (* Unlock after the insert *)
    simpl in Hstep. destruct (mutex p) eqn:Hmp; [|done].
    injection Hstep as <- <- <-. exists (AtReturn None).
    simpl in *. repeat split; simpl; try done; try lia; race_close.
  - (* returned *)
    done.
Qed.

(** A caller inside [AddWorker] never panics, and it can take its next
    step unless it has returned or the other caller holds the mutex. *)
Lemma add_code_enabled (p0 : pool) k pc1 pc2 seed p :
  race_inv p0 k pc1 pc2 p →
  match step_prog (add_code pc1) seed p with
  | Done _ => True
  | Blocked => steps_left pc1 = 0 ∨ holds_mutex pc2 = true
  | Panic => False
  end.
Proof.
  intros [Hfn Hmu Hex Honce Hab Hpr Hun Hc1 Hc2 Hf1 Hf2].
  destruct pc1; simpl in *; try done.
  - rewrite Hmu. destruct (holds_mutex pc2); simpl; [by right|done].
  - by rewrite Hmu.
  - by rewrite Hmu.
  - by left.
Qed.

(** The program points are the code of [AddWorker] itself. *)
Lemma AddWorker_locked_points w :
  AddWorker_locked (Task := Task) (FErr := FErr) w =
    Vis MutexLock (λ _, AddWorker_lookup w).
Proof. reflexivity. Qed.

Lemma add_code_Ret pc (r : option (@error Id FErr)) :
  add_code (Task := Task) pc = Ret r → pc = AtReturn r.
Proof. destruct pc; simpl; try done. by intros [= ->]. Qed.

Lemma steps_left_le pc : steps_left pc ≤ 7.
Proof. destruct pc; simpl; lia. Qed.

Lemma steps_left_0 pc : steps_left pc = 0 → ∃ r, pc = AtReturn r.
Proof. destruct pc; simpl; try done. eauto. Qed.

Lemma race_inv_frame (p0 : pool) k pc1 pc2 p p' :
  mutex p' = mutex p → workers p' = workers p →
  createWorkerFn p' = createWorkerFn p →
  race_inv p0 k pc1 pc2 p → race_inv p0 k pc1 pc2 p'.
Proof.
  intros Hmu Hws Hfn [? ? ? ? ? ? ? ? ? ? ?].
  split; rewrite ?Hmu, ?Hws, ?Hfn; done.
Qed.

Section Race.

Variables (p0 : pool) (id1 id2 : Id) (w1 w2 : W).
Hypothesis Hfn1 : create_worker p0 id1 = inl w1.
Hypothesis Hfn2 : create_worker p0 id2 = inl w2.
Hypothesis Hsame : ID w1 = ID w2.

Local Abbreviation at_pcs := (two_adds_at p0 id1 id2 w1 w2).

Lemma two_adds_at_init :
  mutex p0 = false →
  at_pcs (AtCreate id1) (AtCreate id2) (two_adds p0 id1 id2).
Proof using Type.
  intros Hmu. exists []. split_and!; simpl; try done. lia.
Qed.

(** A step of the first caller. *)
Lemma two_adds_at_step_0 pc1 pc2 s seed :
  at_pcs pc1 pc2 s →
  ∃ pc1',
    at_pcs pc1' pc2 (sys_step s (Step 0 seed)) ∧
    steps_left pc1' ≤ steps_left pc1 ∧
    (holds_mutex pc2 = false → steps_left pc1 ≠ 0 →
     steps_left pc1' < steps_left pc1).
Proof using Hfn1.
  intros Hat.
  pose proof Hat
    as (rest & Hth & Hrest & Hc1 & Hc2 & Hrace & Hcr & Hwg & Hcount & Hlocks).
  pose proof (add_code_enabled _ _ pc1 pc2 seed _ Hrace) as Hen.
  unfold sys_step. rewrite Hcr, Hth. cbn [lookup list_lookup step_thread].
  rewrite <- Hth.
  destruct (step_prog (add_code pc1) seed (sys_pool s))
    as [[[t' p'] evs]| |] eqn:Hstep; cbn [lift_step outcome_map].
  - destruct (add_code_step _ _ _ _ _ _ 0 _ _ _ _ Hfn1 Hc1 Hrace Hstep)
      as (pc1' & -> & Hc1' & Hrace' & Hsp & Hlt & Hwg' & Hins & Hlk).
    exists pc1'. split; [|lia].
    exists (rest ++ spawned evs). rewrite Hth.
    cbn [sys_pool sys_threads sys_trace sys_crashed].
    split_and!; try done.
    + by apply Forall_app_2.
    + rewrite sum_list_with_app. lia.
    + rewrite count_where_app, Hcount. lia.
    + rewrite !count_where_app, Hlocks. lia.
  - exists pc1. split; [done|]. split; [lia|].
    intros Hh Hne. destruct Hen as [?|?]; [done|congruence].
  - done.
Qed.

(** A step of the second caller. *)
Lemma two_adds_at_step_1 pc1 pc2 s seed :
  at_pcs pc1 pc2 s →
  ∃ pc2',
    at_pcs pc1 pc2' (sys_step s (Step 1 seed)) ∧
    steps_left pc2' ≤ steps_left pc2 ∧
    (holds_mutex pc1 = false → steps_left pc2 ≠ 0 →
     steps_left pc2' < steps_left pc2).
Proof using Hfn2 Hsame.
  intros Hat.
  pose proof Hat
    as (rest & Hth & Hrest & Hc1 & Hc2 & Hrace & Hcr & Hwg & Hcount & Hlocks).
  apply race_inv_sym in Hrace. rewrite Hsame in Hrace.
  pose proof (add_code_enabled _ _ pc2 pc1 seed _ Hrace) as Hen.
  unfold sys_step. rewrite Hcr, Hth. cbn [lookup list_lookup step_thread].
  rewrite <- Hth.
  destruct (step_prog (add_code pc2) seed (sys_pool s))
    as [[[t' p'] evs]| |] eqn:Hstep; cbn [lift_step outcome_map].
  - destruct (add_code_step _ _ _ _ _ _ 1 _ _ _ _ Hfn2 Hc2 Hrace Hstep)
      as (pc2' & -> & Hc2' & Hrace' & Hsp & Hlt & Hwg' & Hins & Hlk).
    exists pc2'. split; [|lia].
    exists (rest ++ spawned evs). rewrite Hth.
    cbn [sys_pool sys_threads sys_trace sys_crashed].
    split_and!; try done.
    + by apply Forall_app_2.
    + rewrite Hsame. by apply race_inv_sym.
    + rewrite sum_list_with_app. lia.
    + rewrite count_where_app, Hcount. lia.
    + rewrite !count_where_app, Hlocks. lia.
  - exists pc2. split; [done|]. split; [lia|].
    intros Hh Hne. destruct Hen as [?|?]; [done|congruence].
  - done.
Qed.

(** A step of the goroutine of a worker. *)
Lemma two_adds_at_step_S pc1 pc2 s i seed :
  at_pcs pc1 pc2 s →
  at_pcs pc1 pc2 (sys_step s (Step (S (S i)) seed)).
Proof using Type.
  intros Hat.
  pose proof Hat
    as (rest & Hth & Hrest & Hc1 & Hc2 & Hrace & Hcr & Hwg & Hcount & Hlocks).
  unfold sys_step. rewrite Hcr, Hth. cbn [lookup list_lookup].
  rewrite <- Hth.
  destruct (rest !! i) as [th|] eqn:Hi; [|done].
  pose proof (Forall_lookup_1 _ _ _ _ Hrest Hi) as Hw.
  assert (unfinished th ≤ wg (sys_pool s)) as Hle.
  { pose proof (sum_list_with_in th unfinished rest
                  (list_elem_of_lookup_2 _ _ _ Hi)). lia. }
  pose proof (worker_thread_wg th seed (sys_pool s) Hw Hle) as Hwg'.
  destruct (step_thread th seed (sys_pool s))
    as [[[th' p'] evs]| |] eqn:Hstep; [|done..].
  destruct (worker_thread_step _ _ _ _ _ _ Hw Hstep)
    as (Hw' & Hmu & Hws & Hfn & Hsp & Hins).
  exists (<[i := th']> rest). rewrite Hth, Hsp, app_nil_r.
  cbn [sys_pool sys_threads sys_trace sys_crashed].
  split_and!; try done.
  - by apply Forall_insert.
  - by apply (race_inv_frame _ _ _ _ (sys_pool s)).
  - pose proof (sum_list_with_insert unfinished rest i th th' Hi). lia.
  - rewrite count_where_app, (proj1 (Hins _)), Hcount. lia.
  - rewrite !count_where_app, Hlocks.
    destruct (Hins (S (S i))) as (_ & -> & ->). lia.
Qed.

Lemma two_adds_at_run sched pc1 pc2 s :
  at_pcs pc1 pc2 s →
  ∃ pc1' pc2', at_pcs pc1' pc2' (sys_run s (steps sched)).
Proof using Hfn1 Hfn2 Hsame.
  revert pc1 pc2 s.
  induction sched as [|[[|[|i]] seed] sched IH]; intros pc1 pc2 s Hat.
  - by exists pc1, pc2.
  - destruct (two_adds_at_step_0 pc1 pc2 s seed Hat) as (pc1' & Hat' & _).
    by apply (IH pc1' pc2).
  - destruct (two_adds_at_step_1 pc1 pc2 s seed Hat) as (pc2' & Hat' & _).
    by apply (IH pc1 pc2').
  - apply (IH pc1 pc2). by apply two_adds_at_step_S.
Qed.

(** ** No deadlock *)

(** While the second caller is outside the critical section, the first one
    gets to its return in as many steps as it has left. *)
Lemma first_returns n pc1 pc2 s :
  at_pcs pc1 pc2 s →
  holds_mutex pc2 = false →
  steps_left pc1 ≤ n →
  ∃ r1, at_pcs (AtReturn r1) pc2 (sys_run s (steps (replicate n (0, 0)))).
Proof using Hfn1.
  revert pc1 s. induction n as [|n IH]; intros pc1 s Hat Hh Hle.
  - destruct (steps_left_0 pc1) as [r ->]; [lia|]. by exists r.
  - destruct (two_adds_at_step_0 pc1 pc2 s 0 Hat) as (pc1' & Hat' & Hle' & Hlt).
    apply (IH pc1'); [done..|].
    destruct (decide (steps_left pc1 = 0)) as [Hz|Hnz]; [lia|].
    specialize (Hlt Hh Hnz). lia.
Qed.

Lemma second_returns n pc1 pc2 s :
  at_pcs pc1 pc2 s →
  holds_mutex pc1 = false →
  steps_left pc2 ≤ n →
  ∃ r2, at_pcs pc1 (AtReturn r2) (sys_run s (steps (replicate n (1, 0)))).
Proof using Hfn2 Hsame.
  revert pc2 s. induction n as [|n IH]; intros pc2 s Hat Hh Hle.
  - destruct (steps_left_0 pc2) as [r ->]; [lia|]. by exists r.
  - destruct (two_adds_at_step_1 pc1 pc2 s 0 Hat) as (pc2' & Hat' & Hle' & Hlt).
    apply (IH pc2'); [done..|].
    destruct (decide (steps_left pc2 = 0)) as [Hz|Hnz]; [lia|].
    specialize (Hlt Hh Hnz). lia.
Qed.

(** From wherever the two callers are, some continuation of the schedule
    brings both to their return. *)
Lemma both_return pc1 pc2 s :
  at_pcs pc1 pc2 s →
  ∃ more r1 r2, at_pcs (AtReturn r1) (AtReturn r2) (sys_run s (steps more)).
Proof using Hfn1 Hfn2 Hsame.
  intros Hat.
  pose proof Hat
    as (rest & Hth & Hrest & Hc1 & Hc2 & Hrace & Hcr & Hwg & Hcount & Hlocks).
  pose proof (race_exclusion _ _ _ _ _ Hrace) as Hex.
  destruct (holds_mutex pc2) eqn:Hh2.
  - (* the second caller is in the critical section: it goes first *)
    rewrite andb_true_r in Hex.
    destruct (second_returns 7 pc1 pc2 s Hat Hex (steps_left_le pc2))
      as [r2 Hat2].
    destruct (first_returns 7 pc1 (AtReturn r2) _ Hat2 eq_refl
                (steps_left_le pc1)) as [r1 Hat1].
    exists (replicate 7 (1, 0) ++ replicate 7 (0, 0)), r1, r2.
    by rewrite steps_app, sys_run_app.
  - destruct (first_returns 7 pc1 pc2 s Hat Hh2 (steps_left_le pc1))
      as [r1 Hat1].
    destruct (second_returns 7 (AtReturn r1) pc2 _ Hat1 eq_refl
                (steps_left_le pc2)) as [r2 Hat2].
    exists (replicate 7 (0, 0) ++ replicate 7 (1, 0)), r1, r2.
    by rewrite steps_app, sys_run_app.
Qed.

End Race.

(** C10.  Two callers enter AddWorker on a pool whose mutex is free, and
    the factory gives them workers of the same identity.  Whatever the
    interleaving of their steps (and of the goroutines they start):
    nothing panics; the mutex is never taken twice without an unlock in
    between; at most one insertion into the registry ever happens; once
    both calls have returned, one returned nil and the other ErrIdConflict
    for that identity, unless the identity was registered from the start,
    in which case both returned ErrIdConflict; and the schedule can always
    be continued so that both calls return. *)
Theorem concurrent_AddWorker_same_identity
    (p0 : pool) id1 id2 w1 w2 (sched : list (nat * nat)) :
  mutex p0 = false →
  create_worker p0 id1 = inl w1 →
  create_worker p0 id2 = inl w2 →
  ID w1 = ID w2 →
  let s := sys_run (two_adds p0 id1 id2) (steps sched) in
  let conflict := Some (IdConflict (NewErrIdConflict (ID w1))) in
  sys_crashed s = false ∧
  count_where is_lock (sys_trace s)
    ≤ count_where is_unlock (sys_trace s) + 1 ∧
  count_where is_insert (sys_trace s) ≤ 1 ∧
  (∀ r1 r2,
     sys_threads s !! 0 = Some (TAddWorker (Ret r1)) →
     sys_threads s !! 1 = Some (TAddWorker (Ret r2)) →
     (r1 = None ∧ r2 = conflict ∧ workers p0 !! ID w1 = None) ∨
     (r1 = conflict ∧ r2 = None ∧ workers p0 !! ID w1 = None) ∨
     (r1 = conflict ∧ r2 = conflict ∧ is_Some (workers p0 !! ID w1))) ∧
  ∃ more r1 r2,
    let s' := sys_run (two_adds p0 id1 id2) (steps (sched ++ more)) in
    sys_threads s' !! 0 = Some (TAddWorker (Ret r1)) ∧
    sys_threads s' !! 1 = Some (TAddWorker (Ret r2)).
Proof.
  intros Hmu Hfn1 Hfn2 Hsame s conflict.
  destruct (two_adds_at_run p0 id1 id2 w1 w2 Hfn1 Hfn2 Hsame sched _ _ _
              (two_adds_at_init p0 id1 id2 w1 w2 Hmu))
    as (pc1 & pc2 & Hat).
  fold s in Hat.
  pose proof Hat
    as (rest & Hth & Hrest & Hc1 & Hc2 & Hrace & Hcr & Hwg & Hcount & Hlocks).
  destruct Hrace as [Hfn Hmutex Hex Honce Hab Hpr Hun Hk1 Hk2 Hf1 Hf2].
  split_and!.
  - done.
  - rewrite Hlocks. unfold locks_held.
    destruct (holds_mutex pc1), (holds_mutex pc2); simpl in *; lia.
  - rewrite Hcount. unfold inserts_so_far.
    destruct (has_inserted pc1), (has_inserted pc2); simpl in *; lia.
  - intros r1 r2 H1 H2. rewrite Hth in H1, H2. simpl in H1, H2.
    injection H1 as H1. injection H2 as H2.
    apply add_code_Ret in H1 as ->. apply add_code_Ret in H2 as ->.
    simpl in *. rewrite <- Hsame in Hc2.
    destruct Hc1 as [-> | ->], Hc2 as [-> | ->]; simpl in *.
    + done.
    + left. eauto.
    + right. left. eauto.
    + right. right. split_and!; [done..|].
      by destruct (Hk1 eq_refl).
  - destruct (both_return p0 id1 id2 w1 w2 Hfn1 Hfn2 Hsame pc1 pc2 s Hat)
      as (more & r1 & r2 & rest' & Hth' & _).
    exists more, r1, r2. cbv zeta.
    rewrite steps_app, sys_run_app. fold s. by rewrite Hth'.
Qed.

End TwoAdds.

Section ShutdownFacts.

Context {Id : Type} `{Countable Id} {Task Result FErr W : Type}.
Context `{!GorkWorker (Id := Id) W}.

Local Abbreviation pool := (@GorkPool Id _ _ Task Result FErr W).
Local Abbreviation sys := (@system Id _ _ Task Result FErr W).
Local Abbreviation thr := (@thread Id Task FErr W).
Local Abbreviation code := (@prog Id Task FErr W).

Implicit Types (p : pool) (s : sys) (id k : Id) (w : W) (seed tid : nat).
Implicit Types (th : thr) (d n : nat) (ds : list nat).

(** ** The WaitGroup counter is the sum of what the threads owe *)

Lemma sum_list_insert ds i d d' :
  ds !! i = Some d →
  sum_list (<[i := d']> ds) + d = sum_list ds + d'.
Proof.
  revert i. induction ds as [|x ds IH]; intros [|i] Hi; simpl in *;
    try done.
  - injection Hi as ->. unfold id. lia.
  - specialize (IH _ Hi). lia.
Qed.

Lemma sum_list_zero ds d : sum_list ds = 0 → d ∈ ds → d = 0.
Proof.
  intros Hsum Hin. pose proof (sum_list_with_in d id ds Hin) as Hle.
  unfold id in Hle at 1. lia.
Qed.

(** One step of code that owes [d]. *)
Lemma owes_step {A} d (t : code A) seed tid p t' p' evs :
  owes d t →
  step_prog t seed p = Done (t', p', evs) →
  ∃ d' ds',
    owes d' t' ∧
    Forall2 thread_owes ds' (spawned (FErr := FErr) evs) ∧
    wg p' + d = wg p + d' + sum_list ds' ∧
    shutdown_events (map (pair tid) evs) = [] ∧
    ctx p' = ctx p ∧
    closed (inputCh p') = closed (inputCh p) ∧
    closed (outputCh p') = closed (outputCh p).
Proof.
  destruct t as [a|X o k]; [done|]. intros Howes Hstep.
  destruct o; simpl in Howes, Hstep.
  - injection Hstep as <- <- <-. exists d, []. by split_and!.
  - destruct (mutex p); [done|]. injection Hstep as <- <- <-.
    exists d, []. by split_and!.
  - destruct (mutex p); [|done]. injection Hstep as <- <- <-.
    exists d, []. by split_and!.
  - injection Hstep as <- <- <-. exists d, []. by split_and!.
  - injection Hstep as <- <- <-. exists d, []. by split_and!.
  - injection Hstep as <- <- <-. exists d, []. by split_and!.
  - injection Hstep as <- <- <-. exists d, []. by split_and!.
  - injection Hstep as <- <- <-. exists d, []. by split_and!.
  - (* wg.Add *)
    injection Hstep as <- <- <-. exists (S d), [].
    split_and!; try done. simpl. lia.
  - (* wg.Done *)
    destruct d as [|d]; [done|]. destruct (wg p) as [|m] eqn:Hwg; [done|].
    injection Hstep as <- <- <-. exists d, [].
    split_and!; try done. simpl. lia.
  - done.
  - (* go *)
    destruct g as [w|]; [|done]. destruct d as [|d]; [done|].
    injection Hstep as <- <- <-. exists d, [1].
    split_and!; try done.
    + apply Forall2_cons_2; [|apply Forall2_nil_2].
      simpl. split; [by left|done].
    + simpl. unfold id. lia.
  - injection Hstep as <- <- <-. exists d, []. by split_and!.
  - injection Hstep as <- <- <-. exists d, []. by split_and!.
  - done.
  - done.
  - (* a send *)
    unfold chan_send in Hstep. destruct (closed (inputCh p)) eqn:Hcl; [done|].
    case_decide; [|done]. injection Hstep as <- <- <-.
    exists d, []. by split_and!.
Qed.

Lemma lift_step_Done {A} (wrap : code A → thr) o th' p' evs :
  lift_step wrap o = Done (th', p', evs) →
  ∃ t', o = Done (t', p', evs) ∧ th' = wrap t'.
Proof.
  destruct o as [[[t' q] e]| |]; simpl; [|done..].
  intros [= <- <- <-]. eauto.
Qed.

(** One step of a thread other than the shutdown goroutine. *)
Lemma thread_owes_step d th seed tid p th' p' evs :
  thread_owes d th →
  step_thread th seed p = Done (th', p', evs) →
  ∃ d' ds',
    thread_owes d' th' ∧
    Forall2 thread_owes ds' (spawned (FErr := FErr) evs) ∧
    wg p' + d = wg p + d' + sum_list ds' ∧
    shutdown_events (map (pair tid) evs) = [] ∧
    ctx p' = ctx p ∧
    closed (inputCh p') = closed (inputCh p) ∧
    closed (outputCh p') = closed (outputCh p).
Proof.
  intros Howes Hstep.
  destruct th as [t|t|t|t|t|t|[w|] t]; simpl in Howes; [..|done];
    pose proof Hstep as Hstep0;
    simpl in Hstep; apply lift_step_Done in Hstep as (t' & Hstep & ->).
  1-6: by apply (owes_step _ _ _ tid _ _ _ _ Howes Hstep).
  destruct Howes as [Hshape Howes].
  destruct (owes_step _ _ _ tid _ _ _ _ Howes Hstep)
    as (d' & ds' & Ht' & Hrest).
  exists d', ds'. split; [|done]. split; [|done].
  by apply (worker_thread_step (TGo (GWorker w) t) _ _ _ _ _ Hshape Hstep0).
Qed.

(** A caller enters every API method owing nothing. *)
Lemma call_thread_owes (c : @api_call Id Task) :
  thread_owes (FErr := FErr) (W := W) 0 (call_thread c).
Proof.
  destruct c; simpl; try done.
  - intros [w|e]; simpl; [|done]. intros _ [w'|]; simpl; done.
  - intros _ [[k w]|]; simpl; done.
  - intros _ [w|]; simpl; done.
Qed.

(** ** The invariant of the whole program *)

Section Run.

Variables (ic0 : Chan Task) (oc0 : Chan Result).

Lemma shutdown_inv_init cancelled (fn : @WorkerFactoryFn Id FErr W) :
  shutdown_inv ic0 oc0 0 (init_system cancelled ic0 oc0 fn).
Proof.
  split; [lia|]. exists [], []. simpl.
  split_and!; try done; try lia; by rewrite orb_false_r.
Qed.

Lemma shutdown_events_app (tr1 tr2 : list (nat * @event Id Task W)) :
  shutdown_events (tr1 ++ tr2) = shutdown_events tr1 ++ shutdown_events tr2.
Proof. apply filter_app. Qed.

(** A state that differs only in the crash flag. *)
Lemma shutdown_inv_same n s s' :
  sys_pool s' = sys_pool s → sys_threads s' = sys_threads s →
  sys_trace s' = sys_trace s →
  shutdown_inv ic0 oc0 n s → shutdown_inv ic0 oc0 n s'.
Proof. unfold shutdown_inv. by intros -> -> ->. Qed.

(** Steps of the shutdown goroutine. *)
Lemma shutdown_inv_step_0 n s seed :
  sys_crashed s = false →
  shutdown_inv ic0 oc0 n s →
  ∃ n', n ≤ n' ∧ shutdown_inv ic0 oc0 n' (sys_step s (Step 0 seed)).
Proof.
  intros Hcr Hinv.
  pose proof Hinv
    as (Hn & rest & ds & Hth & Hall & Hwg & Hev & Hctx & Hic & Hoc).
  assert (∀ b, shutdown_inv ic0 oc0 n
                 (mkSys (sys_pool s) (sys_threads s) (sys_trace s) b))
    as Hcrash by (intros b; by apply (shutdown_inv_same n s)).
  unfold sys_step. rewrite Hcr, Hth. cbn [lookup list_lookup].
  rewrite <- Hth.
  destruct n as [|[|[|[|n]]]].
  - (* the receive from ctx.Done() *)
    simpl. destruct (ctx (sys_pool s)) eqn:Hc; simpl; [|by exists 0].
    exists 1. split; [lia|]. split; [lia|]. exists rest, ds.
    cbn [sys_pool sys_threads sys_trace].
    rewrite Hth, app_nil_r, shutdown_events_app, Hev. by split_and!.
  - (* close(p.inputCh) *)
    simpl. unfold chan_close.
    destruct (closed (inputCh (sys_pool s))) eqn:Hc; simpl;
      [by exists 1|].
    exists 2. split; [lia|]. split; [lia|]. exists rest, ds.
    cbn [sys_pool sys_threads sys_trace].
    rewrite Hth, app_nil_r, shutdown_events_app, Hev.
    split_and!; try done.
    + intros _. apply Hctx. lia.
    + simpl. by rewrite orb_true_r.
  - (* p.wg.Wait() *)
    simpl. destruct (wg (sys_pool s)) eqn:Hw; simpl; [|by exists 2].
    exists 3. split; [lia|]. split; [lia|]. exists rest, ds.
    cbn [sys_pool sys_threads sys_trace].
    rewrite Hth, app_nil_r, shutdown_events_app, Hev.
    split_and!; try done; try congruence.
    intros _. apply Hctx. lia.
  - (* close(p.outputCh) *)
    simpl. unfold chan_close.
    destruct (closed (outputCh (sys_pool s))) eqn:Hc; simpl;
      [by exists 3|].
    exists 4. split; [lia|]. split; [lia|]. exists rest, ds.
    cbn [sys_pool sys_threads sys_trace].
    rewrite Hth, app_nil_r, shutdown_events_app, Hev.
    split_and!; try done.
    + intros _. apply Hctx. lia.
    + simpl. by rewrite orb_true_r.
  - (* returned *)
    assert (n = 0) as -> by lia. by exists 4.
Qed.

(** Steps of the other threads. *)
Lemma shutdown_inv_step_S n s i seed :
  sys_crashed s = false →
  shutdown_inv ic0 oc0 n s →
  shutdown_inv ic0 oc0 n (sys_step s (Step (S i) seed)).
Proof.
  intros Hcr Hinv.
  pose proof Hinv
    as (Hn & rest & ds & Hth & Hall & Hwg & Hev & Hctx & Hic & Hoc).
  assert (∀ b, shutdown_inv ic0 oc0 n
                 (mkSys (sys_pool s) (sys_threads s) (sys_trace s) b))
    as Hcrash by (intros b; by apply (shutdown_inv_same n s)).
  unfold sys_step. rewrite Hcr, Hth. cbn [lookup list_lookup].
  rewrite <- Hth.
  destruct (rest !! i) as [th|] eqn:Hi; [|done].
  destruct (step_thread th seed (sys_pool s))
    as [[[th' p'] evs]| |] eqn:Hstep; [|done..].
  destruct (Forall2_lookup_r _ _ _ _ _ Hall Hi) as (d & Hd & Howes).
  destruct (thread_owes_step _ _ _ (S i) _ _ _ _ Howes Hstep)
    as (d' & ds' & Howes' & Hsp & Hsum & Hquiet & Hc & Hi' & Ho').
  split; [done|]. exists (<[i := th']> rest ++ spawned evs).
  exists (<[i := d']> ds ++ ds').
  cbn [sys_pool sys_threads sys_trace].
  rewrite Hth, shutdown_events_app, Hquiet, app_nil_r, Hc, Hi', Ho'.
  split_and!; try done.
  - apply Forall2_app; [|done]. by apply Forall2_insert.
  - rewrite sum_list_with_app.
    pose proof (sum_list_insert ds i d d' Hd). lia.
Qed.

Lemma shutdown_inv_step n s a :
  shutdown_inv ic0 oc0 n s →
  ∃ n', n ≤ n' ∧ shutdown_inv ic0 oc0 n' (sys_step s a).
Proof.
  intros Hinv. destruct (sys_crashed s) eqn:Hcr.
  { exists n. split; [lia|]. unfold sys_step. by rewrite Hcr. }
  destruct a as [[|i] seed|c|].
  - by apply shutdown_inv_step_0.
  - exists n. split; [lia|]. by apply shutdown_inv_step_S.
  - (* a caller enters an API method *)
    exists n. split; [lia|]. unfold sys_step. rewrite Hcr.
    destruct Hinv
      as (Hn & rest & ds & Hth & Hall & Hwg & Hev & Hctx & Hic & Hoc).
    split; [done|]. exists (rest ++ [call_thread c]), (ds ++ [0]).
    cbn [sys_pool sys_threads sys_trace]. rewrite Hth.
    split_and!; try done.
    + apply Forall2_app; [done|].
      apply Forall2_cons_2; [apply call_thread_owes|apply Forall2_nil_2].
    + rewrite sum_list_with_app, <- Hwg. simpl. unfold id. lia.
  - (* the context is cancelled *)
    exists n. split; [lia|]. unfold sys_step. rewrite Hcr.
    destruct Hinv
      as (Hn & rest & ds & Hth & Hall & Hwg & Hev & Hctx & Hic & Hoc).
    split; [done|]. exists rest, ds. by split_and!.
Qed.

Lemma shutdown_inv_run sched n s :
  shutdown_inv ic0 oc0 n s →
  ∃ n', n ≤ n' ∧ shutdown_inv ic0 oc0 n' (sys_run s sched).
Proof.
  revert n s. induction sched as [|a sched IH]; intros n s Hinv.
  - exists n. by split.
  - destruct (shutdown_inv_step n s a Hinv) as (n1 & Hle & Hinv1).
    destruct (IH n1 _ Hinv1) as (n2 & Hle2 & Hinv2).
    exists n2. split; [lia|done].
Qed.

Lemma shutdown_event_in_trace (tr : list (nat * @event Id Task W)) te :
  is_shutdown_event te = true → te ∈ tr → te ∈ shutdown_events tr.
Proof. intros Hte Hin. by apply list_elem_of_filter. Qed.

Lemma elem_of_pair_map tid tid' (e : @event Id Task W) evs :
  (tid, e) ∈ map (pair tid') evs → tid = tid'.
Proof.
  induction evs as [|e' evs IH]; simpl; intros Hin.
  - by apply elem_of_nil in Hin.
  - apply elem_of_cons in Hin as [[= -> _]|Hin]; [done|by apply IH].
Qed.

(** The step at which [wg.Wait()] returns: the counter is 0 and every
    goroutine of a worker has run to its end. *)
Lemma wait_returns n s a :
  shutdown_inv ic0 oc0 n s →
  (0, EvWgWait) ∉ sys_trace s →
  (0, EvWgWait) ∈ sys_trace (sys_step s a) →
  wg (sys_pool (sys_step s a)) = 0 ∧
  ∀ tid w t,
    sys_threads (sys_step s a) !! tid = Some (TGo (GWorker w) t) →
    t = Ret tt.
Proof.
  intros (Hn & rest & ds & Hth & Hall & Hwg & Hev & Hctx & Hic & Hoc).
  intros Hnot Hin. unfold sys_step in *.
  destruct (sys_crashed s); [done|].
  destruct a as [[|i] seed|c|]; [| |done..]; rewrite Hth in *;
    cbn [lookup list_lookup] in *.
  - (* the shutdown goroutine *)
    destruct n as [|[|[|[|n]]]]; simpl in Hin |- *.
    + destruct (ctx (sys_pool s)); simpl in Hin; [|done].
      apply elem_of_app in Hin as [Hin|Hin]; [done|].
      by apply list_elem_of_singleton in Hin.
    + unfold chan_close in *.
      destruct (closed (inputCh (sys_pool s))); simpl in Hin; [done|].
      apply elem_of_app in Hin as [Hin|Hin]; [done|].
      by apply list_elem_of_singleton in Hin.
    + destruct (wg (sys_pool s)) eqn:Hw; simpl in Hin |- *; [|done].
      split; [done|]. intros [|j] w t Hl; simpl in Hl; [done|].
      rewrite app_nil_r in Hl.
      destruct (Forall2_lookup_r _ _ _ _ _ Hall Hl) as (d & Hd & Hsh & Ho).
      assert (d = 0) as ->.
      { apply (sum_list_zero ds); [done|].
        by apply list_elem_of_lookup_2 with j. }
      destruct Hsh as [->|[->| ->]]; simpl in Ho; [by destruct (Ho tt)|done..].
    + unfold chan_close in *.
      destruct (closed (outputCh (sys_pool s))); simpl in Hin; [done|].
      apply elem_of_app in Hin as [Hin|Hin]; [done|].
      by apply list_elem_of_singleton in Hin.
    + done.
  - (* another thread *)
    destruct (rest !! i) as [th|]; [|done].
    destruct (step_thread th seed (sys_pool s)) as [[[th' p'] evs]| |];
      simpl in Hin; [|done..].
    apply elem_of_app in Hin as [Hin|Hin]; [done|].
    by apply elem_of_pair_map in Hin.
Qed.

(** Where the shutdown goroutine is, after any schedule. *)
Lemma shutdown_reached cancelled (fn : @WorkerFactoryFn Id FErr W) sched :
  ∃ n, shutdown_inv ic0 oc0 n
         (sys_run (init_system cancelled ic0 oc0 fn) sched).
Proof.
  destruct (shutdown_inv_run sched 0 _ (shutdown_inv_init cancelled fn))
    as (n & _ & Hinv).
  by exists n.
Qed.

End Run.

(** C6, as the code has it.  After any schedule, the shutdown goroutine
    (thread 0) is [n] operations into gracefullyShutdown, for some [n]
    from 0 to 4, and:
    - the shutdown events of the whole trace are the first [n] of: receive
      from ctx.Done(), close the input channel, return from wg.Wait(),
      close the output channel; so the input channel is closed right
      after the cancellation is seen and before the wait, the output
      channel is closed after the wait, and nothing follows;
    - the cancellation has fired once the first of them happened;
    - the input channel is closed from the second on, the output channel
      only with the fourth (for channels handed in open), and the
      goroutine has returned then;
    - at the step where wg.Wait() returns, the counter is 0 and every
      worker goroutine started so far has returned from Process and
      called Done.  Workers started by a later AddWorker are not waited
      for. *)
Theorem shutdown_order (cancelled : bool) (ic : Chan Task)
    (oc : Chan Result) (fn : @WorkerFactoryFn Id FErr W)
    (sched : list action) :
  let s := sys_run (init_system cancelled ic oc fn) sched in
  ∃ n, n ≤ 4 ∧
    shutdown_events (sys_trace s) = take n shutdown_script ∧
    sys_threads s !! 0 = Some (TGo GShutdown (shutdown_code n)) ∧
    (1 ≤ n → ctx (sys_pool s) = true) ∧
    closed (inputCh (sys_pool s)) = closed ic || bool_decide (2 ≤ n) ∧
    closed (outputCh (sys_pool s)) = closed oc || bool_decide (n = 4) ∧
    (n = 4 → sys_threads s !! 0 = Some (TGo GShutdown (Ret tt))) ∧
    ∀ a,
      let s' := sys_step s a in
      (0, EvWgWait) ∉ sys_trace s →
      (0, EvWgWait) ∈ sys_trace s' →
      wg (sys_pool s') = 0 ∧
      ∀ tid w t,
        sys_threads s' !! tid = Some (TGo (GWorker w) t) → t = Ret tt.
Proof.
  intros s. destruct (shutdown_reached ic oc cancelled fn sched) as [n Hinv].
  fold s in Hinv. exists n.
  pose proof Hinv
    as (Hn & rest & ds & Hth & Hall & Hwg & Hev & Hctx & Hic & Hoc).
  split_and!; try done.
  - by rewrite Hth.
  - intros ->. by rewrite Hth.
  - intros a s'. by apply (wait_returns ic oc n).
Qed.

End ShutdownFacts.

(** * The pool of the tests *)

Section TestPool.

Local Open Scope Z_scope.

(** Other entries stay as they are when one is removed by id. *)
Lemma RemoveWorkerById_frame (p : testPool) (id j : Z) (seed : nat) :
  mutex p = false → j ≠ id →
  workers (final (exec (RemoveWorkerById id) seed p)) !! j = workers p !! j.
Proof.
  intros Hmu Hne. rewrite exec_RemoveWorkerById by done.
  destruct (workers p !! id); [|done].
  cbn [final workers set_workers]. by rewrite lookup_delete_ne.
Qed.

(** The run of [graceful]: every thread has returned, both channels are
    closed, and the shutdown goroutine waited for the worker's Done. *)
Example graceful_run :
  let s := sys_run test_system graceful in
  sys_threads s =
    [TGo GShutdown (Ret tt); TAddWorker (Ret None);
     TGo (GWorker (newTestWorker 1 inputHandle outputHandle)) (Ret tt)] ∧
  closed (inputCh (sys_pool s)) = true ∧
  closed (outputCh (sys_pool s)) = true ∧
  sys_crashed s = false ∧
  drop 6 (sys_trace s) =
    [(0%nat, EvClose InputChan);
     (2%nat, EvProcessReturn (newTestWorker 1 inputHandle outputHandle));
     (2%nat, EvWgDone);
     (0%nat, EvWgWait);
     (0%nat, EvClose OutputChan)].
Proof. by vm_compute. Qed.

(** C5.  On the pool of the tests, the ten calls AddWorker(0) ...
    AddWorker(9) all return nil; then Length() is 10 and Contains(i) is
    true for each of the ten.  After RemoveWorkerById(7), which returns
    worker 7, Length() is 9, Contains(7) is false, Contains(i) is true for
    the nine others, and every registry entry other than 7 is what it
    was. *)
Theorem ten_workers_remove_7 (seed : nat) :
  let '(outs, p10) := exec_calls (add_ten seed) setupPool.1 in
  outs = replicate 10 (Done (RetErr None)) ∧
  result (exec Length seed p10) = Done 10 ∧
  Forall (λ i, result (exec (Contains i) seed p10) = Done true) ten_ids ∧
  let r := exec (RemoveWorkerById 7) seed p10 in
  result r = Done (Some (newTestWorker 7 inputHandle outputHandle)) ∧
  result (exec Length seed (final r)) = Done 9 ∧
  result (exec (Contains 7) seed (final r)) = Done false ∧
  Forall (λ i, result (exec (Contains i) seed (final r)) = Done true)
         [0; 1; 2; 3; 4; 5; 6; 8; 9] ∧
  ∀ j, j ≠ 7 → workers (final r) !! j = workers p10 !! j.
Proof.
  destruct (exec_calls (add_ten seed) setupPool.1) as [outs p10] eqn:Hrun.
  vm_compute in Hrun. injection Hrun as <- <-.
  split; [reflexivity|]. split; [reflexivity|].
  split; [repeat constructor|]. split; [reflexivity|].
  split; [reflexivity|]. split; [reflexivity|].
  split; [repeat constructor|].
  intros j Hj. by apply RemoveWorkerById_frame.
Qed.

(** ** The contracts at work on the pool of the tests *)

(** AddWorker(3) on a pool that has worker 3. *)
Lemma AddWorker_failure_leaves_pool_untouched_witness :
  mutex (pool_with 3) = false ∧
  result (exec (AddWorker 3) 0 (pool_with 3)) =
    Done (Some (IdConflict (NewErrIdConflict 3))) ∧
  final (exec (AddWorker 3) 0 (pool_with 3)) = pool_with 3.
Proof.
  split; [reflexivity|]. split; [reflexivity|].
  destruct (AddWorker_failure_leaves_pool_untouched 3 0%nat (pool_with 3)
              eq_refl) as (_ & _ & Hsame).
  exact (proj1 (Hsame (IdConflict (NewErrIdConflict 3)) eq_refl)).
Defined.

(** RemoveWorkerById(3) on a pool that has worker 3. *)
Lemma RemoveWorkerById_contract_witness :
  mutex (pool_with 3) = false ∧
  result (exec (RemoveWorkerById 3) 0 (pool_with 3)) =
    Done (Some (newTestWorker 3 inputHandle outputHandle)) ∧
  result (exec (Contains 3) 0
            (final (exec (RemoveWorkerById 3) 0 (pool_with 3)))) =
    Done false.
Proof.
  split; [reflexivity|].
  destruct (RemoveWorkerById_contract 3 0%nat (pool_with 3) eq_refl)
    as [_ Hpresent].
  destruct (Hpresent (newTestWorker 3 inputHandle outputHandle) eq_refl)
    as [Hres Hgone].
  exact (conj Hres (Hgone 0%nat)).
Defined.

(** RemoveWorker on the empty pool of [TestRemoveWorkerEmpty]. *)
Lemma removing_nothing_is_not_an_error_witness :
  mutex setupPool.1 = false ∧
  result (exec RemoveWorker 0 setupPool.1) = Done None ∧
  result (exec Length 0 (final (exec RemoveWorker 0 setupPool.1))) = Done 0.
Proof.
  split; [reflexivity|].
  destruct (removing_nothing_is_not_an_error 0%nat setupPool.1 eq_refl)
    as [Hempty _].
  destruct (Hempty eq_refl) as (Hres & _ & Hlen).
  exact (conj Hres (proj2 (Hlen 0%nat))).
Defined.

(** RemoveWorkerById(3) on a pool that has worker 3. *)
Lemma removal_signals_the_removed_worker_once_witness :
  mutex (pool_with 3) = false ∧
  events (exec (RemoveWorkerById 3) 0 (pool_with 3)) =
    [EvLock; EvDelete 3; EvUnlock;
     EvSignalRemoval (newTestWorker 3 inputHandle outputHandle)].
Proof.
  split; [reflexivity|].
  pose proof (proj2 (removal_signals_the_removed_worker_once
                       0%nat (pool_with 3) eq_refl) 3) as Hrem.
  cbv zeta in Hrem.
  assert (result (exec (RemoveWorkerById 3) 0 (pool_with 3)) =
            Done (Some (newTestWorker 3 inputHandle outputHandle))) as Hres
    by reflexivity.
  rewrite Hres in Hrem. exact (proj2 (proj2 Hrem)).
Defined.

(** AddWorker(1) on [nextIdPool]: the new worker reports 2. *)
Lemma AddWorker_uses_reported_identity_witness :
  mutex nextIdPool = false ∧
  create_worker nextIdPool 1 = inl (newTestWorker 2 inputHandle outputHandle) ∧
  result (exec (AddWorker 1) 0 nextIdPool) = Done None ∧
  result (exec (Contains 2) 0 (final (exec (AddWorker 1) 0 nextIdPool))) =
    Done true.
Proof.
  split; [reflexivity|]. split; [reflexivity|].
  destruct (AddWorker_uses_reported_identity 1 0%nat nextIdPool
              (newTestWorker 2 inputHandle outputHandle) eq_refl eq_refl)
    as [Hfree _].
  destruct (Hfree eq_refl) as (Hres & _ & Hin & _).
  exact (conj Hres (Hin 0%nat)).
Defined.

(** C9 as it is worded fails: on [nextIdPool], where 1 is registered,
    AddWorker(1) gets a worker reporting 2, returns nil, and Contains(1)
    is still true. *)
Lemma AddWorker_given_id_stays_registered :
  let r := exec (AddWorker 1) 0 nextIdPool in
  ∃ w, create_worker nextIdPool 1 = inl w ∧
       ID w = 2 ∧
       result r = Done None ∧
       result (exec (Contains (ID w)) 0 (final r)) = Done true ∧
       result (exec (Contains 1) 0 (final r)) = Done true.
Proof. exists (newTestWorker 2 inputHandle outputHandle). by vm_compute. Qed.

(** C8 as it is worded fails: through the handle OutputCh() returns, a
    caller sends 42 into the output channel of the pool. *)
Lemma OutputCh_handle_can_send :
  ∃ h p',
    result (exec OutputCh 0 setupPool.1) = Done h ∧
    can_send (h_dir h) = true ∧
    send_result h 42 setupPool.1 = Some (Done p') ∧
    buf (outputCh p') = [42].
Proof. do 2 eexists. by vm_compute. Qed.

(** C6 as it is worded fails: after [late_add], the next step of the
    shutdown goroutine closes the output channel while the goroutine of
    worker 1, started before, is still inside Process. *)
Lemma output_closed_while_a_worker_is_in_Process :
  ¬ output_closes_after_every_worker_returned test_system.
Proof.
  intros Hclaim.
  specialize (Hclaim late_add (Step 0 0) eq_refl eq_refl
                (go_thread (GWorker (newTestWorker 1 inputHandle outputHandle)))).
  cbv zeta in Hclaim.
  assert (go_thread (GWorker (newTestWorker 1 inputHandle outputHandle))
            ∈ sys_threads (sys_step (sys_run test_system late_add)
                                    (Step 0 0))) as Hin.
  { apply list_elem_of_lookup_2 with 2%nat. reflexivity. }
  specialize (Hclaim Hin). discriminate Hclaim.
Qed.

(** Two callers of AddWorker(5) taking turns on the pool of the tests:
    the first returns nil, the second ErrIdConflict. *)
Lemma concurrent_AddWorker_same_identity_witness :
  let s := sys_run (two_adds setupPool.1 5 5) (steps taking_turns) in
  mutex setupPool.1 = false ∧
  create_worker setupPool.1 5 = inl (newTestWorker 5 inputHandle outputHandle) ∧
  sys_threads s !! 0%nat = Some (TAddWorker (Ret None)) ∧
  sys_threads s !! 1%nat =
    Some (TAddWorker (Ret (Some (IdConflict (NewErrIdConflict 5))))) ∧
  (count_where is_insert (sys_trace s) ≤ 1)%nat.
Proof.
  split; [reflexivity|]. split; [reflexivity|].
  split; [reflexivity|]. split; [reflexivity|].
  pose proof (concurrent_AddWorker_same_identity
                setupPool.1 5 5
                (newTestWorker 5 inputHandle outputHandle)
                (newTestWorker 5 inputHandle outputHandle)
                taking_turns eq_refl eq_refl eq_refl eq_refl)
    as (_ & _ & Hins & _).
  exact Hins.
Defined.

End TestPool.

(** * More on the operations of the registry *)

Section RegistryOperations.

Context {Id : Type} `{Countable Id} {Task Result FErr W : Type}.
Context `{!GorkWorker (Id := Id) W}.

Local Abbreviation pool := (@GorkPool Id _ _ Task Result FErr W).
Local Abbreviation call := (@api_call Id Task).

Implicit Types (p : pool) (m : gmap Id W) (id k j : Id) (w : W) (seed : nat).
Implicit Types (c : call) (cs : list (call * nat)).

(** X1.  A new pool is empty: Length() is 0, Contains is false for every
    id, both removals return nil; and NewGorkPool started one goroutine, the
    shutdown one. *)
Theorem NewGorkPool_is_empty (cancelled : bool) (ic : Chan Task)
    (oc : Chan Result) (fn : @WorkerFactoryFn Id FErr W) seed :
  let '(p, gs) := NewGorkPool cancelled ic oc fn in
  gs = [GShutdown] ∧
  result (exec Length seed p) = Done 0%Z ∧
  (∀ id, result (exec (Contains id) seed p) = Done false) ∧
  result (exec RemoveWorker seed p) = Done None ∧
  (∀ id, result (exec (RemoveWorkerById id) seed p) = Done None) ∧
  inputCh p = ic ∧ outputCh p = oc.
Proof.
  cbn [NewGorkPool]. by split_and!.
Qed.

(** X2.  AddWorker whose worker reports a free identity: it returns nil; the
    pool differs from before only by the new registry entry and by one more
    unit in the WaitGroup; Length() is one more; Contains answers as before
    for every other id; the unit is added to the WaitGroup before the
    goroutine is started, inside the critical section; and exactly one
    goroutine is started, the one around that worker's Process. *)
Theorem AddWorker_success_effect id seed p w :
  mutex p = false →
  create_worker p id = inl w →
  workers p !! ID w = None →
  let r := exec (AddWorker id) seed p in
  result r = Done None ∧
  final r = set_wg (S (wg p)) (set_workers (<[ID w := w]> (workers p)) p) ∧
  (∀ s n, result (exec Length s p) = Done n →
          result (exec Length s (final r)) = Done (n + 1)%Z) ∧
  (∀ s k, k ≠ ID w →
          result (exec (Contains k) s (final r)) =
          result (exec (Contains k) s p)) ∧
  events r =
    [EvLock; EvWgAdd; EvInsert (ID w) w; EvGo (GWorker w); EvUnlock] ∧
  spawned (FErr := FErr) (events r) = [go_thread (GWorker w)].
Proof.
  intros Hmu Hfn Hfree r. subst r.
  rewrite exec_AddWorker, Hfn, Hfree by done. cbn [result final events].
  split_and!; try done.
  - intros s n. rewrite !exec_Length by done.
    cbn [result workers set_wg set_workers]. intros [= <-]. f_equal.
    rewrite map_size_insert_None by done. lia.
  - intros s k Hk. rewrite !exec_Contains by done.
    cbn [result workers set_wg set_workers]. by rewrite lookup_insert_ne.
Qed.

(** X3.  RemoveWorker on a pool that has workers never returns nil: it
    returns one of the registered workers, deletes that worker's entry and
    no other, leaves the WaitGroup alone, and Length() is one less. *)
Theorem RemoveWorker_nonempty seed p :
  mutex p = false →
  workers p ≠ ∅ →
  let r := exec RemoveWorker seed p in
  ∃ k w,
    workers p !! k = Some w ∧
    result r = Done (Some w) ∧
    final r = set_workers (delete k (workers p)) p ∧
    (∀ j, j ≠ k → workers (final r) !! j = workers p !! j) ∧
    workers (final r) !! k = None ∧
    wg (final r) = wg p ∧
    ∀ s n, result (exec Length s p) = Done n →
           result (exec Length s (final r)) = Done (n - 1)%Z.
Proof.
  intros Hmu Hne r. subst r. rewrite exec_RemoveWorker by done.
  destruct (range_first seed (workers p)) as [[k w]|] eqn:Hr.
  - pose proof (range_first_Some _ _ _ _ Hr) as Hk.
    exists k, w. cbn [result final workers set_workers wg].
    split_and!; try done.
    + intros j Hj. by rewrite lookup_delete_ne.
    + by rewrite lookup_delete_eq.
    + intros s n. rewrite !exec_Length by done.
      cbn [result workers set_workers]. intros [= <-]. f_equal.
      rewrite (size_delete_present _ _ _ Hk). lia.
  - by apply range_first_None in Hr.
Qed.


(** X5.  RemoveWorkerById of a registered id deletes that entry and no
    other, leaves the WaitGroup, the channels and the context alone (the
    worker's goroutine stays counted until its Process returns), and
    Length() is one less. *)
Theorem RemoveWorkerById_effect id seed p w :
  mutex p = false →
  workers p !! id = Some w →
  let r := exec (RemoveWorkerById id) seed p in
  final r = set_workers (delete id (workers p)) p ∧
  (∀ j, j ≠ id → workers (final r) !! j = workers p !! j) ∧
  wg (final r) = wg p ∧
  ∀ s n, result (exec Length s p) = Done n →
         result (exec Length s (final r)) = Done (n - 1)%Z.
Proof.
  intros Hmu Hid r. subst r. rewrite exec_RemoveWorkerById, Hid by done.
  cbn [final workers set_workers wg]. split_and!; try done.
  - intros j Hj. by rewrite lookup_delete_ne.
  - intros s n. rewrite !exec_Length by done.
    cbn [result workers set_workers]. intros [= <-]. f_equal.
    rewrite (size_delete_present _ _ _ Hid). lia.
Qed.

(** X6.  An identity is free again as soon as its worker is removed: where
    AddWorker fails with ErrIdConflict because the identity is taken, the
    same AddWorker right after RemoveWorkerById of that identity returns
    nil and registers the new worker in the old one's place.  Length() is
    as it was, and the WaitGroup counts one more (the removed worker's
    goroutine is still counted). *)
Theorem identity_is_reusable_after_removal id seed p w w0 :
  mutex p = false →
  create_worker p id = inl w →
  workers p !! ID w = Some w0 →
  let p1 := final (exec (RemoveWorkerById (ID w)) seed p) in
  let r := exec (AddWorker id) seed p1 in
  result (exec (AddWorker id) seed p) =
    Done (Some (IdConflict (NewErrIdConflict (ID w)))) ∧
  result r = Done None ∧
  workers (final r) = <[ID w := w]> (workers p) ∧
  wg (final r) = S (wg p) ∧
  ∀ s, result (exec Length s (final r)) = result (exec Length s p).
Proof.
  intros Hmu Hfn Hold p1 r. subst r p1.
  rewrite (exec_AddWorker id seed p), Hfn, Hold by done.
  rewrite exec_RemoveWorkerById, Hold by done. cbn [final].
  rewrite exec_AddWorker by done.
  unfold create_worker in *. cbn [createWorkerFn set_workers workers].
  rewrite Hfn, lookup_delete_eq. cbn [result final workers set_wg set_workers wg].
  rewrite insert_delete_eq. split_and!; try done.
  intros s. rewrite !exec_Length by done.
  cbn [result workers set_wg set_workers]. do 2 f_equal.
  by rewrite map_size_insert_Some.
Qed.

(** X7.  Adding a worker under a free identity and removing it by that
    identity gives the worker back and leaves the registry exactly as it
    was before the two calls; the removal signals that worker; the
    WaitGroup still counts the goroutine that was started. *)
Theorem add_then_remove_restores_registry id seed p w :
  mutex p = false →
  create_worker p id = inl w →
  workers p !! ID w = None →
  let p1 := final (exec (AddWorker id) seed p) in
  let r := exec (RemoveWorkerById (ID w)) seed p1 in
  result r = Done (Some w) ∧
  workers (final r) = workers p ∧
  wg (final r) = S (wg p) ∧
  events r = [EvLock; EvDelete (ID w); EvUnlock; EvSignalRemoval w].
Proof.
  intros Hmu Hfn Hfree p1 r. subst r p1.
  rewrite exec_AddWorker, Hfn, Hfree by done. cbn [final].
  rewrite exec_RemoveWorkerById by done.
  cbn [workers set_wg set_workers]. rewrite lookup_insert_eq.
  cbn [result final events workers set_workers wg set_wg].
  by rewrite delete_insert_id.
Qed.

(** X8.  The queries agree with the other operations and change nothing:
    Contains(id) is true exactly when RemoveWorkerById(id) would return a
    worker; Length() is 0 exactly when Contains is false for every id; and
    after Length() or Contains(id) the pool is as before. *)
Theorem queries_agree_with_the_registry id seed p :
  mutex p = false →
  (result (exec (Contains id) seed p) = Done true ↔
   ∃ w, result (exec (RemoveWorkerById id) seed p) = Done (Some w)) ∧
  (result (exec Length seed p) = Done 0%Z ↔
   ∀ k, result (exec (Contains k) seed p) = Done false) ∧
  final (exec (Contains id) seed p) = p ∧
  final (exec Length seed p) = p.
Proof.
  intros Hmu.
  rewrite exec_RemoveWorkerById, exec_Length by done.
  split_and!.
  - rewrite exec_Contains by done. cbn [result].
    destruct (workers p !! id) as [w|]; cbn [result]; split.
    + eauto.
    + done.
    + done.
    + by intros [w [=]].
  - cbn [result]. split.
    + intros [= Hz] k. rewrite exec_Contains by done. cbn [result].
      assert (workers p = ∅) as -> by (apply map_size_empty_iff; lia).
      by rewrite lookup_empty.
    + intros Hall. f_equal.
      assert (workers p = ∅) as ->; [|by rewrite map_size_empty].
      apply map_empty. intros k. specialize (Hall k).
      rewrite exec_Contains in Hall by done. cbn [result] in Hall.
      by destruct (workers p !! k).
  - by rewrite exec_Contains.
  - done.
Qed.

(** ** AddTask *)

Lemma AddTask_step (task : Task) seed p :
  closed (inputCh p) = false →
  length (buf (inputCh p)) < cap (inputCh p) →
  result (exec (AddTask task) seed p) = Done tt ∧
  final (exec (AddTask task) seed p) =
    set_inputCh {| buf := buf (inputCh p) ++ [task];
                   cap := cap (inputCh p);
                   closed := false |} p.
Proof.
  intros Hcl Hroom. cbn [AddTask exec do_op]. unfold chan_send.
  rewrite Hcl. by case_decide; [|lia].
Qed.

(** X9.  AddTask does not take the mutex and touches nothing but the input
    channel.  On a closed input channel (as after shutdown) it panics; on an
    open one with room the task goes to the back of the queue; on a full one
    the caller blocks. *)
Theorem AddTask_outcomes (task : Task) seed p :
  let r := exec (AddTask task) seed p in
  (closed (inputCh p) = true → result r = Panic ∧ final r = p) ∧
  (closed (inputCh p) = false →
   length (buf (inputCh p)) < cap (inputCh p) →
   result r = Done tt ∧
   final r =
     set_inputCh {| buf := buf (inputCh p) ++ [task];
                    cap := cap (inputCh p);
                    closed := false |} p) ∧
  (closed (inputCh p) = false →
   cap (inputCh p) ≤ length (buf (inputCh p)) →
   result r = Blocked ∧ final r = p).
Proof.
  cbn [AddTask exec do_op]. unfold chan_send.
  destruct (closed (inputCh p)) eqn:Hcl.
  - by split_and!.
  - case_decide; split_and!; try done; intros; lia.
Qed.

(** X10.  Tasks added one after the other, while there is room for all of
    them, are queued in the order of the calls, behind what was queued
    before; every call returns; the registry is not touched. *)
Theorem AddTask_keeps_order (ts : list Task) seed p :
  closed (inputCh p) = false →
  length (buf (inputCh p)) + length ts ≤ cap (inputCh p) →
  (exec_calls (add_tasks seed ts) p).1 = map (λ _, Done RetUnit) ts ∧
  buf (inputCh (exec_calls (add_tasks seed ts) p).2) =
    buf (inputCh p) ++ ts ∧
  closed (inputCh (exec_calls (add_tasks seed ts) p).2) = false ∧
  workers (exec_calls (add_tasks seed ts) p).2 = workers p.
Proof.
  revert p. induction ts as [|t ts IH]; intros p Hcl Hroom.
  - simpl. by rewrite app_nil_r.
  - simpl in Hroom.
    destruct (AddTask_step t seed p Hcl) as (Hres & Hfin); [lia|].
    cbn [add_tasks map exec_calls exec_call run_map result final].
    rewrite Hres, Hfin. cbn [outcome_map fst snd].
    destruct (IH (set_inputCh
                    {| buf := buf (inputCh p) ++ [t];
                       cap := cap (inputCh p); closed := false |} p))
      as (IH1 & IH2 & IH3 & IH4).
    { done. }
    { cbn [inputCh set_inputCh buf cap]. rewrite length_app. simpl. lia. }
    fold (add_tasks (Id := Id) seed ts). rewrite IH1, IH2, IH3, IH4.
    cbn [inputCh set_inputCh buf workers]. rewrite <- app_assoc.
    by split_and!.
Qed.

(** ** What a sequence of calls keeps *)

Lemma registry_keyed_insert p w :
  registry_keyed p →
  registry_keyed (set_wg (S (wg p)) (set_workers (<[ID w := w]> (workers p)) p)).
Proof.
  intros Hk k w'. cbn [workers set_wg set_workers].
  destruct (decide (k = ID w)) as [->|Hne].
  - rewrite lookup_insert_eq. by intros [= ->].
  - rewrite lookup_insert_ne by done. apply Hk.
Qed.

Lemma registry_keyed_delete p k :
  registry_keyed p → registry_keyed (set_workers (delete k (workers p)) p).
Proof.
  intros Hk j w. cbn [workers set_workers].
  destruct (decide (j = k)) as [->|Hne].
  - by rewrite lookup_delete_eq.
  - rewrite lookup_delete_ne by done. apply Hk.
Qed.

(** One call: the registry stays keyed by identity; the context, the
    output channel, the factory and the closed flag and capacity of the
    input channel stay as they are; the WaitGroup grows by one exactly when
    an AddWorker returns nil. *)
Lemma exec_call_keeps c seed p :
  mutex p = false →
  registry_keyed p →
  let r := exec_call c seed p in
  registry_keyed (final r) ∧
  ctx (final r) = ctx p ∧
  closed (inputCh (final r)) = closed (inputCh p) ∧
  cap (inputCh (final r)) = cap (inputCh p) ∧
  outputCh (final r) = outputCh p ∧
  createWorkerFn (final r) = createWorkerFn p ∧
  wg (final r) = wg p + (if is_successful_add (result r) then 1 else 0).
Proof.
  intros Hmu Hk. destruct c; cbv [exec_call run_map]; cbn [final result].
  - rewrite exec_AddWorker by done.
    destruct (create_worker p id) as [w|]; [|by split_and!; simpl; try lia].
    destruct (workers p !! ID w); cbn [final result outcome_map].
    + split_and!; simpl; try done; lia.
    + split_and!; try done; try (by apply registry_keyed_insert); simpl; lia.
  - rewrite exec_RemoveWorker by done.
    destruct (range_first seed (workers p)) as [[k w]|];
      cbn [final result outcome_map].
    + split_and!; try done; try (by apply registry_keyed_delete); simpl; lia.
    + split_and!; simpl; try done; lia.
  - rewrite exec_RemoveWorkerById by done.
    destruct (workers p !! id); cbn [final result outcome_map].
    + split_and!; try done; try (by apply registry_keyed_delete); simpl; lia.
    + split_and!; simpl; try done; lia.
  - rewrite exec_Length by done. split_and!; simpl; try done; lia.
  - rewrite exec_Contains by done. split_and!; simpl; try done; lia.
  - cbn [AddTask exec do_op]. unfold chan_send.
    destruct (closed (inputCh p)) eqn:Hcl;
      [by split_and!; simpl; try lia|].
    case_decide; split_and!; simpl; try done; lia.
  - split_and!; simpl; try done; lia.
Qed.

(** X11.  Whatever calls a caller makes on a new pool, one after the other:
    every registered worker sits under the identity it reports; the pool's
    methods never cancel the context, never close a channel and never touch
    the output channel; and the WaitGroup counter is the number of
    AddWorker calls that returned nil (removals do not lower it). *)
Theorem api_calls_keep_the_pool_sound
    (cancelled : bool) (ic : Chan Task) (oc : Chan Result)
    (fn : @WorkerFactoryFn Id FErr W) cs :
  let '(outs, pf) := exec_calls cs (NewGorkPool cancelled ic oc fn).1 in
  registry_keyed pf ∧
  ctx pf = cancelled ∧
  closed (inputCh pf) = closed ic ∧
  outputCh pf = oc ∧
  wg pf = count_where is_successful_add outs.
Proof.
  assert (∀ cs p,
    mutex p = false → registry_keyed p →
    mutex (exec_calls cs p).2 = false ∧
    registry_keyed (exec_calls cs p).2 ∧
    ctx (exec_calls cs p).2 = ctx p ∧
    closed (inputCh (exec_calls cs p).2) = closed (inputCh p) ∧
    outputCh (exec_calls cs p).2 = outputCh p ∧
    wg (exec_calls cs p).2 =
      wg p + count_where is_successful_add (exec_calls cs p).1) as Hgen.
  { clear cs. intros cs. induction cs as [|[c seed] cs IH]; intros p Hmu Hk.
    - simpl. split_and!; try done; unfold count_where; simpl; lia.
    - pose proof (exec_call_keeps c seed p Hmu Hk)
        as (Hk' & Hctx & Hcl & _ & Hout & _ & Hwg).
      pose proof (exec_call_mutex c seed p Hmu) as Hmu'.
      cbn [exec_calls].
      destruct (result (exec_call c seed p)) as [v| |] eqn:Hres;
        cbn [fst snd].
      + destruct (IH _ Hmu' Hk') as (I1 & I2 & I3 & I4 & I5 & I6).
        split_and!; try done; try congruence.
        rewrite I6, Hwg, count_where_cons. lia.
      + split_and!; try done;
          rewrite Hwg, count_where_cons; unfold count_where; simpl; lia.
      + split_and!; try done;
          rewrite Hwg, count_where_cons; unfold count_where; simpl; lia. }
  specialize (Hgen cs (NewGorkPool cancelled ic oc fn).1 eq_refl).
  destruct (exec_calls cs (NewGorkPool cancelled ic oc fn).1) as [outs pf].
  cbn [fst snd NewGorkPool] in Hgen.
  destruct Hgen as (_ & G2 & G3 & G4 & G5 & G6); [by intros k w|].
  cbn [ctx inputCh outputCh wg] in *. by split_and!.
Qed.

(** X12.  On a registry keyed by identity, a removal gives back a worker of
    the identity that was asked for, and a worker that was given back is
    not in the registry any more: RemoveWorkerById(id) returns only a
    worker that reports id, and after RemoveWorker returned worker w,
    Contains(w.ID()) is false. *)
Theorem removed_worker_has_left_the_registry seed p :
  mutex p = false →
  registry_keyed p →
  (∀ id w, result (exec (RemoveWorkerById id) seed p) = Done (Some w) →
           ID w = id) ∧
  (∀ w, result (exec RemoveWorker seed p) = Done (Some w) →
        ∀ s, result (exec (Contains (ID w)) s
                       (final (exec RemoveWorker seed p))) = Done false).
Proof.
  intros Hmu Hk. split.
  - intros id w. rewrite exec_RemoveWorkerById by done.
    destruct (workers p !! id) as [w'|] eqn:Hid; [|done].
    intros [= <-]. by apply Hk.
  - intros w. rewrite exec_RemoveWorker by done.
    destruct (range_first seed (workers p)) as [[k w']|] eqn:Hr; [|done].
    intros [= <-] s. cbn [final].
    rewrite exec_Contains by done. cbn [result workers set_workers].
    apply range_first_Some, Hk in Hr. subst k.
    by rewrite lookup_delete_eq.
Qed.

End RegistryOperations.

(** * The locking discipline *)

Section Discipline.

Context {Id : Type} `{Countable Id} {Task Result FErr W : Type}.
Context `{!GorkWorker (Id := Id) W}.

Local Abbreviation pool := (@GorkPool Id _ _ Task Result FErr W).
Local Abbreviation sys := (@system Id _ _ Task Result FErr W).
Local Abbreviation thr := (@thread Id Task FErr W).
Local Abbreviation code := (@prog Id Task FErr W).
Local Abbreviation ev := (@event Id Task W).
Local Abbreviation hold := (@hold Id).

Implicit Types (p : pool) (s : sys) (id k : Id) (w : W) (seed tid : nat).
Implicit Types (th : thr) (d n : nat) (h : hold) (ho : option nat).
Implicit Types (st : hold * nat) (sts : list (hold * nat)).
Implicit Types (tr : list (nat * ev)).

Lemma holder_app ho tr1 tr2 :
  foldl holder_step ho (tr1 ++ tr2) =
    foldl holder_step (foldl holder_step ho tr1) tr2.
Proof. apply foldl_app. Qed.

Lemma disciplined_app ho tr1 tr2 :
  disciplined ho (tr1 ++ tr2) =
    disciplined ho tr1 && disciplined (foldl holder_step ho tr1) tr2.
Proof.
  revert ho. induction tr1 as [|te tr1 IH]; intros ho; simpl; [done|].
  by rewrite IH, andb_assoc.
Qed.

Lemma registry_keyed_same p p' :
  workers p' = workers p → registry_keyed p → registry_keyed p'.
Proof. unfold registry_keyed. by intros ->. Qed.

Lemma held_is_holder h ho tid :
  is_held h = bool_decide (ho = Some tid) →
  match h with
  | Held _ _ => ho = Some tid
  | Free => ho ≠ Some tid
  end.
Proof.
  destruct h; simpl; intros Hh.
  - intros ->. by rewrite bool_decide_true in Hh.
  - symmetry in Hh. by apply bool_decide_eq_true in Hh.
Qed.

Ltac disc_close H :=
  cbn; split_and!; try done; try lia; try apply H;
  try (by rewrite bool_decide_true);
  try (by left); try (right; by left); try (right; by right);
  try (intros Hc ?; specialize (Hc eq_refl); lia); try (intros; lia).

(** One operation of code that keeps the rules, run by thread [tid] on a
    pool that agrees with where the thread stands. *)
Lemma disc_step {A} h d (t : code A) seed tid p t' p' evs ho :
  disc h d t →
  step_prog t seed p = Done (t', p', evs) →
  mutex p = bool_decide (is_Some ho) →
  is_held h = bool_decide (ho = Some tid) →
  knows p h →
  registry_keyed p →
  ∃ h' d' sp,
    let ho' := foldl holder_step ho (map (pair tid) evs) in
    disc h' d' t' ∧
    Forall2 thread_disc sp (spawned (FErr := FErr) evs) ∧
    Forall (λ st, st.1 = Free) sp ∧
    mutex p' = bool_decide (is_Some ho') ∧
    is_held h' = bool_decide (ho' = Some tid) ∧
    (ho' = ho ∨ ho = None ∧ ho' = Some tid ∨ ho = Some tid ∧ ho' = None) ∧
    knows p' h' ∧
    (is_held h = false → workers p' = workers p) ∧
    wg p' + d = wg p + d' + sum_list_with snd sp ∧
    registry_keyed p' ∧
    size (workers p') + count_where is_delete (map (pair tid) evs) =
      size (workers p) + count_where is_insert (map (pair tid) evs) ∧
    disciplined ho (map (pair tid) evs) = true ∧
    ((h = Free → d = 0) → h' = Free → d' = 0) ∧
    (is_held h = true → fuel_of h' < fuel_of h) ∧
    (fuel_of h ≤ 5 → fuel_of h' ≤ 5).
Proof.
  destruct t as [a|X o k]; [done|]. intros Hdisc Hstep Hmu Hh Hkn Hkey.
  pose proof (held_is_holder _ _ _ Hh) as Hho.
  destruct o; simpl in Hdisc, Hstep.
  - (* the factory *)
    destruct h as [|n kn]; [|done]. destruct d; [|done].
    injection Hstep as <- <- <-. exists Free, 0, []. disc_close Hdisc.
  - (* Lock *)
    destruct h as [|n kn]; [|done]. destruct d; [|done].
    destruct (mutex p) eqn:Hm; [done|]. destruct ho as [j|]; [done|].
    injection Hstep as <- <- <-. exists (Held 4 None), 0, [].
    disc_close Hdisc.
  - (* Unlock *)
    destruct h as [|n kn]; [done|]. destruct d; [|done]. subst ho.
    cbn in Hmu. rewrite Hmu in Hstep.
    injection Hstep as <- <- <-. exists Free, 0, []. disc_close Hdisc.
  - (* a lookup *)
    destruct h as [|[|n] kn]; try done. subst ho.
    injection Hstep as <- <- <-.
    exists (Held n (Some (id, bool_decide (is_Some (workers p !! id))))), d, [].
    disc_close Hdisc.
  - (* an insert *)
    destruct h as [|[|n] [[k0 [|]]|]]; try done.
    case_decide as Hid; [|done]. destruct Hid as [-> Hid]. subst ho.
    injection Hstep as <- <- <-. exists (Held n None), d, [].
    simpl in Hkn. apply bool_decide_eq_false in Hkn.
    assert (workers p !! id = None) as Hnone.
    { destruct (workers p !! id) eqn:E; [|done]. by destruct Hkn. }
    disc_close Hdisc.
    + intros k' w'. cbn. destruct (decide (k' = id)) as [->|Hne].
      * rewrite lookup_insert_eq. by intros [= <-].
      * rewrite lookup_insert_ne by done. apply Hkey.
    + rewrite map_size_insert_None by done. unfold count_where. simpl. lia.
  - (* a delete *)
    destruct h as [|[|n] [[k0 [|]]|]]; try done.
    case_decide as Hid; [|done]. subst k0 ho.
    injection Hstep as <- <- <-. exists (Held n None), d, [].
    simpl in Hkn. apply bool_decide_eq_true in Hkn as [w0 Hw0].
    disc_close Hdisc.
    + intros k' w'. cbn. destruct (decide (k' = id)) as [->|Hne].
      * by rewrite lookup_delete_eq.
      * rewrite lookup_delete_ne by done. apply Hkey.
    + rewrite (size_delete_present _ _ _ Hw0). unfold count_where. simpl. lia.
  - (* the first entry of a range *)
    destruct h as [|[|n] kn]; try done. subst ho.
    injection Hstep as <- <- <-.
    exists (Held n match range_first seed (workers p) with
                   | Some (k0, _) => Some (k0, true)
                   | None => None
                   end), d, [].
    disc_close Hdisc.
    destruct (range_first seed (workers p)) as [[k0 w0]|] eqn:Hr; [|done].
    apply range_first_Some in Hr. simpl. rewrite Hr. done.
  - (* len *)
    destruct h as [|[|n] kn]; try done. subst ho.
    injection Hstep as <- <- <-. exists (Held n kn), d, [].
    disc_close Hdisc.
  - (* wg.Add *)
    destruct h as [|[|n] kn]; try done. subst ho.
    injection Hstep as <- <- <-. exists (Held n kn), (S d), [].
    disc_close Hdisc.
  - (* wg.Done *)
    destruct h as [|n kn]; [|done]. destruct d as [|d]; [done|].
    destruct (wg p) as [|m] eqn:Hwg; [done|].
    injection Hstep as <- <- <-. exists Free, d, []. disc_close Hdisc.
  - done.
  - (* go *)
    destruct g as [w|]; [|done].
    destruct h as [|[|n] kn]; try done. destruct d as [|d]; [done|]. subst ho.
    injection Hstep as <- <- <-. exists (Held n kn), d, [(Free, 1)].
    disc_close Hdisc.
    + apply Forall2_cons_2; [|apply Forall2_nil_2].
      simpl. split; [by left|done].
    + by apply Forall_singleton.
  - (* the return of Process *)
    destruct h as [|n kn]; [|done].
    injection Hstep as <- <- <-. exists Free, d, []. disc_close Hdisc.
  - (* SignalRemoval *)
    destruct h as [|n kn]; [|done]. destruct d; [|done].
    injection Hstep as <- <- <-. exists Free, 0, []. disc_close Hdisc.
  - done.
  - done.
  - (* a send *)
    destruct h as [|n kn]; [|done]. destruct d; [|done].
    destruct (chan_send t (inputCh p)) as [c| |]; [|done..].
    injection Hstep as <- <- <-. exists Free, 0, []. disc_close Hdisc.
Qed.

(** The same for a thread other than the shutdown goroutine. *)
Lemma thread_disc_step st th seed tid p th' p' evs ho :
  thread_disc st th →
  step_thread th seed p = Done (th', p', evs) →
  mutex p = bool_decide (is_Some ho) →
  is_held st.1 = bool_decide (ho = Some tid) →
  knows p st.1 →
  registry_keyed p →
  ∃ st' sp,
    let ho' := foldl holder_step ho (map (pair tid) evs) in
    thread_disc st' th' ∧
    Forall2 thread_disc sp (spawned (FErr := FErr) evs) ∧
    Forall (λ st, st.1 = Free) sp ∧
    mutex p' = bool_decide (is_Some ho') ∧
    is_held st'.1 = bool_decide (ho' = Some tid) ∧
    (ho' = ho ∨ ho = None ∧ ho' = Some tid ∨ ho = Some tid ∧ ho' = None) ∧
    knows p' st'.1 ∧
    (is_held st.1 = false → workers p' = workers p) ∧
    wg p' + st.2 = wg p + st'.2 + sum_list_with snd sp ∧
    registry_keyed p' ∧
    size (workers p') + count_where is_delete (map (pair tid) evs) =
      size (workers p) + count_where is_insert (map (pair tid) evs) ∧
    disciplined ho (map (pair tid) evs) = true ∧
    (is_held st.1 = true → fuel_of st'.1 < fuel_of st.1) ∧
    (fuel_of st.1 ≤ 5 → fuel_of st'.1 ≤ 5).
Proof.
  intros Hdisc Hstep Hmu Hh Hkn Hkey. destruct st as [h d].
  destruct th as [t|t|t|t|t|t|[w|] t]; simpl in Hdisc; [..|done];
    pose proof Hstep as Hstep0;
    simpl in Hstep; apply lift_step_Done in Hstep as (t' & Hstep & ->).
  1-6: destruct Hdisc as [Hdisc Hfree];
    destruct (disc_step _ _ _ _ _ _ _ _ _ _ Hdisc Hstep Hmu Hh Hkn Hkey)
      as (h' & d' & sp & H1 & H2 & H3 & H4 & H5 & H6 & H7 & H8 & H9 & H10
          & H11 & H12 & H13 & H14 & H15);
    exists (h', d'), sp; cbn [fst snd]; split_and!; try done;
    split; [done|by apply H13].
  destruct Hdisc as [Hshape Hdisc].
  destruct (disc_step _ _ _ _ _ _ _ _ _ _ Hdisc Hstep Hmu Hh Hkn Hkey)
    as (h' & d' & sp & H1 & H2 & H3 & H4 & H5 & H6 & H7 & H8 & H9 & H10
        & H11 & H12 & H13 & H14 & H15).
  exists (h', d'), sp. cbn [fst snd]. split_and!; try done.
  split; [|done].
  by apply (worker_thread_step (TGo (GWorker w) t) _ _ _ _ _ Hshape Hstep0).
Qed.

(** A caller enters every API method outside the critical sections, owing
    nothing. *)
Lemma call_thread_disc (c : @api_call Id Task) :
  thread_disc (FErr := FErr) (W := W) (Free, 0) (call_thread c).
Proof.
  destruct c; simpl; (split; [|done]); simpl; try done.
  - intros [w|e]; simpl; [|done]. intros _ [w'|]; simpl; [done|].
    intros _. rewrite decide_True by done. simpl. done.
  - intros _ [[k w]|]; simpl; [|done].
    rewrite decide_True by done. simpl. done.
  - intros _ [w|]; simpl; [|done].
    rewrite decide_True by done. simpl. done.
Qed.

(** ** The invariant of the whole program *)

Lemma knows_same p p' h : workers p' = workers p → knows p h → knows p' h.
Proof. destruct h as [|n [[k b]|]]; simpl; [done| |done]. by intros ->. Qed.

(** Thread [S i] moves from [st] to [st'] and starts the threads of [sp]. *)
Lemma stands_update ho ho' p p' sts i st st' sp :
  (∀ j st, sts !! j = Some st → stands ho p j st) →
  (∀ j, ho = Some j → 0 < j ≤ length sts) →
  sts !! i = Some st →
  stands ho' p' i st' →
  Forall (λ st, st.1 = Free) sp →
  (ho' = ho ∨ ho = None ∧ ho' = Some (S i) ∨ ho = Some (S i) ∧ ho' = None) →
  (is_held st.1 = false → workers p' = workers p) →
  (∀ j st, (<[i := st']> sts ++ sp) !! j = Some st → stands ho' p' j st) ∧
  (∀ j, ho' = Some j → 0 < j ≤ length (<[i := st']> sts ++ sp)).
Proof.
  intros Hall Hbound Hi Hst' Hsp Hho Hframe.
  pose proof (lookup_lt_Some _ _ _ Hi) as Hlt.
  destruct (Hall _ _ Hi) as (Hheld & _ & _).
  split.
  - intros j stj Hl. apply lookup_app_Some in Hl as [Hl|[Hlen Hl]].
    + destruct (decide (j = i)) as [->|Hne].
      * rewrite list_lookup_insert_eq in Hl by done. by injection Hl as <-.
      * rewrite list_lookup_insert_ne in Hl by done.
        destruct (Hall _ _ Hl) as (Hj & Hkn & Hfuel).
        destruct (is_held st.1) eqn:Hst.
        -- symmetry in Hheld. apply bool_decide_eq_true in Hheld. subst ho.
           rewrite bool_decide_false in Hj by congruence.
           destruct stj as [[|] dj]; [|done]. split_and!; [|done|simpl; lia].
           simpl. symmetry. apply bool_decide_eq_false.
           destruct Hho as [->|[[? _]|[_ ->]]]; congruence.
        -- split_and!; [|by apply (knows_same p); [apply Hframe|]|done].
           rewrite Hj. symmetry in Hheld.
           apply bool_decide_eq_false in Hheld.
           destruct Hho as [->|[[-> ->]|[? _]]]; [done| |done].
           rewrite !bool_decide_false; congruence.
    + rewrite length_insert in Hlen.
      apply list_elem_of_lookup_2 in Hl as Hin.
      rewrite Forall_forall in Hsp. specialize (Hsp _ Hin).
      destruct stj as [hj dj]. simpl in Hsp. subst hj.
      split_and!; [|done|simpl; lia].
      simpl. symmetry. apply bool_decide_eq_false. intros Heq.
      destruct Hho as [->|[[_ ->]|[_ ->]]]; [|injection Heq; lia|done].
      specialize (Hbound _ Heq). lia.
  - intros j Hj. rewrite length_app, length_insert.
    destruct Hho as [->|[[_ ->]|[_ ->]]]; [| |done].
    + specialize (Hbound _ Hj). lia.
    + injection Hj as <-. lia.
Qed.

(** The shutdown goroutine touches neither the mutex nor the registry nor
    the counter of the WaitGroup. *)
Lemma shutdown_code_step n seed p th' p' evs :
  step_thread (TGo GShutdown (shutdown_code n)) seed p = Done (th', p', evs) →
  mutex p' = mutex p ∧ workers p' = workers p ∧ wg p' = wg p ∧
  spawned (FErr := FErr) evs = [] ∧
  ∀ tid ho,
    foldl holder_step ho (map (pair tid) evs) = ho ∧
    (ho ≠ Some tid → disciplined ho (map (pair tid) evs) = true) ∧
    count_where is_insert (map (pair tid) evs) = 0 ∧
    count_where is_delete (map (pair tid) evs) = 0.
Proof.
  destruct n as [|[|[|[|n]]]]; simpl; [| | | |done].
  - destruct (ctx p); simpl; [|done]. intros [= <- <- <-].
    split_and!; try done. intros tid ho. split_and!; try done.
    intros Hne. cbn. by rewrite bool_decide_true.
  - unfold chan_close. destruct (closed (inputCh p)); simpl; [done|].
    intros [= <- <- <-]. split_and!; try done.
    intros tid ho. split_and!; try done.
    intros Hne. cbn. by rewrite bool_decide_true.
  - destruct (wg p) eqn:Hw; simpl; [|done]. intros [= <- <- <-].
    split_and!; try done. intros tid ho. split_and!; try done.
    intros Hne. cbn. by rewrite bool_decide_true.
  - unfold chan_close. destruct (closed (outputCh p)); simpl; [done|].
    intros [= <- <- <-]. split_and!; try done.
    intros tid ho. split_and!; try done.
    intros Hne. cbn. by rewrite bool_decide_true.
Qed.

Lemma disc_inv_init cancelled (ic : Chan Task) (oc : Chan Result)
    (fn : @WorkerFactoryFn Id FErr W) :
  disc_inv_with [] (init_system cancelled ic oc fn).
Proof.
  unfold disc_inv_with. simpl.
  split_and!; try done; try apply Forall2_nil_2.
Qed.

(** A state that differs only in the crash flag. *)
Lemma disc_inv_same sts s s' :
  sys_pool s' = sys_pool s → sys_threads s' = sys_threads s →
  sys_trace s' = sys_trace s →
  disc_inv_with sts s → disc_inv_with sts s'.
Proof. unfold disc_inv_with. by intros -> -> ->. Qed.

(** Steps of the shutdown goroutine. *)
Lemma disc_inv_step_0 n sts s seed rest :
  sys_crashed s = false →
  sys_threads s = TGo GShutdown (shutdown_code n) :: rest →
  disc_inv_with sts s → disc_inv_with sts (sys_step s (Step 0 seed)).
Proof.
  intros Hcr Hth Hinv.
  pose proof Hinv
    as (Hall & Hst & Hbound & Hmu & Hwg & Hkey & Hsize & Htr).
  unfold sys_step. rewrite Hcr, Hth. cbn [lookup list_lookup].
  rewrite <- Hth.
  destruct (step_thread (TGo GShutdown (shutdown_code n)) seed (sys_pool s))
    as [[[th' p'] evs]| |] eqn:Hstep; [|done|by apply (disc_inv_same sts s)].
  destruct (shutdown_code_step _ _ _ _ _ _ Hstep)
    as (Hm & Hw & Hg & Hsp & Hev).
  destruct (Hev 0 (holder (sys_trace s))) as (Hho & Hdis & Hins & Hdel).
  unfold disc_inv_with. cbn [sys_pool sys_threads sys_trace].
  unfold holder in *.
  rewrite Hth, Hsp, app_nil_r, holder_app, Hho, Hm, Hg, !count_where_app,
    Hins, Hdel, disciplined_app, Htr, Hw.
  rewrite Hth in Hall. simpl in Hall |- *.
  split_and!; try done; try lia.
  - intros j st Hj. destruct (Hst _ _ Hj) as (H1 & H2 & H3).
    split_and!; [done| |done]. by apply (knows_same (sys_pool s)).
  - by apply (registry_keyed_same (sys_pool s)).
  - apply Hdis. intros Heq. specialize (Hbound _ Heq). lia.
Qed.

(** Steps of the other threads: thread [S i] moves on from [st]. *)
Lemma disc_inv_step_S sts s i seed th st :
  sys_crashed s = false →
  disc_inv_with sts s →
  tail (sys_threads s) !! i = Some th →
  sts !! i = Some st →
  match step_thread th seed (sys_pool s) with
  | Done (th', p', evs) =>
      ∃ st' sp,
        disc_inv_with (<[i := st']> sts ++ sp)
          (sys_step s (Step (S i) seed)) ∧
        Forall2 thread_disc sp (spawned (FErr := FErr) evs) ∧
        Forall (λ st, st.1 = Free) sp ∧
        thread_disc st' th' ∧
        is_held st'.1 =
          bool_decide (holder (sys_trace (sys_step s (Step (S i) seed)))
                       = Some (S i)) ∧
        (is_held st.1 = true → fuel_of st'.1 < fuel_of st.1) ∧
        (is_held st.1 = true → mutex p' = is_held st'.1) ∧
        wg p' + st.2 = wg (sys_pool s) + st'.2 + sum_list_with snd sp ∧
        sys_step s (Step (S i) seed) =
          mkSys p' (<[S i := th']> (sys_threads s) ++ spawned evs)
                (sys_trace s ++ map (pair (S i)) evs) false
  | _ => disc_inv_with sts (sys_step s (Step (S i) seed))
  end.
Proof.
  intros Hcr Hinv Hi Hsti.
  pose proof Hinv
    as (Hall & Hst & Hbound & Hmu & Hwg & Hkey & Hsize & Htr).
  unfold sys_step. rewrite Hcr.
  destruct (sys_threads s) as [|th0 rest] eqn:Hth; [done|].
  change ((th0 :: rest) !! S i) with (rest !! i).
  change (tail (th0 :: rest)) with rest in Hi, Hall. rewrite Hi.
  destruct (step_thread th seed (sys_pool s))
    as [[[th' p'] evs]| |] eqn:Hstep;
    [|done|by apply (disc_inv_same sts s)].
  destruct (Forall2_lookup_r _ _ _ _ _ Hall Hi) as (st0 & Hsti0 & Hdisc).
  assert (st0 = st) as -> by congruence.
  destruct (Hst _ _ Hsti) as (Hheld & Hkn & Hfuel).
  destruct (thread_disc_step _ _ _ (S i) _ _ _ _ _ Hdisc Hstep Hmu Hheld
              Hkn Hkey)
    as (st' & sp & H1 & H2 & H3 & H4 & H5 & H6 & H7 & H8 & H9 & H10 & H11
        & H12 & H13 & H14).
  destruct (stands_update _ _ _ p' _ _ _ st' sp Hst Hbound Hsti
              (conj H5 (conj H7 (H14 Hfuel))) H3 H6 H8) as [Hst' Hbound'].
  exists st', sp. unfold disc_inv_with.
  cbn [sys_pool sys_threads sys_trace tail insert list_insert app].
  unfold holder in *.
  rewrite holder_app, !count_where_app, disciplined_app, Htr.
  split_and!; try done.
  - apply Forall2_app; [|done]. by apply Forall2_insert.
  - rewrite sum_list_with_app.
    pose proof (sum_list_with_insert snd sts i st st' Hsti). lia.
  - lia.
  - intros Hst1. rewrite Hst1 in Hheld. symmetry in Hheld.
    apply bool_decide_eq_true in Hheld. rewrite H4, H5.
    destruct H6 as [->|[[Hn _]|[_ ->]]]; [|congruence|done].
    rewrite Hheld. by rewrite !bool_decide_true.
Qed.

Lemma disc_inv_step (ic0 : Chan Task) (oc0 : Chan Result) n s a :
  shutdown_inv ic0 oc0 n s →
  disc_inv s → disc_inv (sys_step s a).
Proof.
  intros Hsh [sts Hinv]. destruct (sys_crashed s) eqn:Hcr.
  { exists sts. unfold sys_step. by rewrite Hcr. }
  destruct a as [[|i] seed|c|].
  - destruct Hsh as (_ & rest & ds & Hth & _).
    exists sts. by apply (disc_inv_step_0 n sts s seed rest).
  - destruct (tail (sys_threads s) !! i) as [th|] eqn:Hi.
    + pose proof Hinv as (Hall & _).
      destruct (Forall2_lookup_r _ _ _ _ _ Hall Hi) as (st & Hsti & _).
      pose proof (disc_inv_step_S sts s i seed th st Hcr Hinv Hi Hsti) as Hs.
      destruct (step_thread th seed (sys_pool s)) as [[[th' p'] evs]| |].
      * destruct Hs as (st' & sp & Hs & _). by eexists.
      * by exists sts.
      * by exists sts.
    + exists sts. unfold sys_step. rewrite Hcr.
      destruct (sys_threads s) as [|th0 rest]; [done|].
      simpl in Hi |- *. by rewrite Hi.
  - (* a caller enters an API method *)
    unfold sys_step. rewrite Hcr.
    destruct Hsh as (_ & rest & ds & Hth & _).
    destruct Hinv
      as (Hall & Hst & Hbound & Hmu & Hwg & Hkey & Hsize & Htr).
    exists (sts ++ [(Free, 0)]). unfold disc_inv_with.
    cbn [sys_pool sys_threads sys_trace]. rewrite Hth in Hall |- *.
    simpl in Hall |- *. split_and!; try done.
    + apply Forall2_app; [done|].
      apply Forall2_cons_2; [apply call_thread_disc|apply Forall2_nil_2].
    + intros j st Hj. apply lookup_app_Some in Hj as [Hj|[Hlen Hj]].
      * by apply Hst.
      * destruct (j - length sts) as [|m]; [|done]. injection Hj as <-.
        split_and!; [|done|simpl; lia]. simpl. symmetry.
        apply bool_decide_eq_false.
        intros Heq. specialize (Hbound _ Heq). lia.
    + intros j Hj. specialize (Hbound _ Hj). rewrite length_app. simpl. lia.
    + rewrite sum_list_with_app. simpl. lia.
  - (* the context is cancelled *)
    unfold sys_step. rewrite Hcr.
    destruct Hinv
      as (Hall & Hst & Hbound & Hmu & Hwg & Hkey & Hsize & Htr).
    exists sts. unfold disc_inv_with.
    cbn [sys_pool sys_threads sys_trace]. by split_and!.
Qed.

(** Where the whole program is, after any schedule. *)
Lemma pool_reached cancelled (ic : Chan Task) (oc : Chan Result)
    (fn : @WorkerFactoryFn Id FErr W) sched :
  let s := sys_run (init_system cancelled ic oc fn) sched in
  ∃ n, shutdown_inv ic oc n s ∧ disc_inv s.
Proof.
  simpl.
  assert (∀ n s, shutdown_inv ic oc n s → disc_inv s →
                 ∃ n', shutdown_inv ic oc n' (sys_run s sched) ∧
                       disc_inv (sys_run s sched)) as Hgen.
  { induction sched as [|a sched IH]; intros n s Hsh Hinv.
    - by exists n.
    - destruct (shutdown_inv_step ic oc n s a Hsh) as (n1 & _ & Hsh1).
      apply (IH n1); [done|]. by apply (disc_inv_step ic oc n). }
  apply (Hgen 0); [apply shutdown_inv_init|].
  eexists. apply disc_inv_init.
Qed.

(** ** What the discipline gives *)

(** In a disciplined trace the locks are the unlocks, plus one if the
    mutex is held at the end. *)
Lemma disciplined_balance ho tr :
  disciplined ho tr = true →
  count_where is_lock tr + match ho with Some _ => 1 | None => 0 end =
    count_where is_unlock tr
    + match foldl holder_step ho tr with Some _ => 1 | None => 0 end.
Proof.
  revert ho. induction tr as [|[tid e] tr IH]; intros ho; [done|].
  simpl. intros [Hal Hrest]%andb_prop. specialize (IH _ Hrest).
  rewrite !count_where_cons.
  destruct e; cbn in Hal, IH |- *; try lia.
  - apply bool_decide_eq_true in Hal. subst ho. lia.
  - apply bool_decide_eq_true in Hal. subst ho. lia.
Qed.

(** The code of the shutdown goroutine touches the registry nowhere. *)
Lemma shutdown_code_no_access n :
  about_to_access (Id := Id) (Task := Task) (FErr := FErr) (W := W)
    (TGo GShutdown (shutdown_code n)) = false.
Proof. by destruct n as [|[|[|[|n]]]]. Qed.

(** Code that keeps the rules and is about to read or write the registry
    is inside a critical section. *)
Lemma disc_access {A} h d (t : code A) :
  disc h d t → next_op (@touches_registry Id Task FErr W) t = true →
  is_held h = true.
Proof.
  destruct t as [a|X o k]; [done|]. simpl.
  destruct o; try done; by destruct h.
Qed.

Lemma thread_disc_access st th :
  thread_disc st th → about_to_access th = true → is_held st.1 = true.
Proof.
  destruct th as [t|t|t|t|t|t|[w|] t]; simpl; try done.
  1-6: intros [Hd _]; by apply (disc_access _ _ _ Hd).
  intros [_ Hd]. by apply (disc_access _ _ _ Hd).
Qed.

Lemma accessor_holds (ic : Chan Task) (oc : Chan Result) n sts s tid th :
  shutdown_inv ic oc n s →
  disc_inv_with sts s →
  sys_threads s !! tid = Some th →
  about_to_access th = true →
  holder (sys_trace s) = Some tid.
Proof.
  intros (_ & rest & ds & Hth & _) (Hall & Hst & _) Hl Hacc.
  rewrite Hth in Hl, Hall. destruct tid as [|i]; simpl in Hl, Hall.
  - injection Hl as <-. by rewrite shutdown_code_no_access in Hacc.
  - destruct (Forall2_lookup_r _ _ _ _ _ Hall Hl) as (st & Hsti & Hdisc).
    destruct (Hst _ _ Hsti) as (Hheld & _).
    rewrite (thread_disc_access _ _ Hdisc Hacc) in Hheld.
    symmetry in Hheld. by apply bool_decide_eq_true in Hheld.
Qed.

(** X13.  The mutex discipline, in every interleaving of any API calls
    with the pool's goroutines and the cancellation.  Read off the trace:
    a lock finds the mutex free; every unlock, every insert into and
    delete from the registry, every wg.Add and every start of a worker's
    goroutine is by the thread that holds the mutex; SignalRemoval, the
    send of a task, the return of Process, wg.Done and the steps of the
    shutdown goroutine are by a thread that does not hold it.  The mutex is
    locked exactly when the trace has a lock without its unlock, so locks
    and unlocks balance up to the one critical section that is open. *)
Theorem mutex_discipline (cancelled : bool) (ic : Chan Task)
    (oc : Chan Result) (fn : @WorkerFactoryFn Id FErr W)
    (sched : list action) :
  let s := sys_run (init_system cancelled ic oc fn) sched in
  disciplined None (sys_trace s) = true ∧
  mutex (sys_pool s) = bool_decide (is_Some (holder (sys_trace s))) ∧
  count_where is_lock (sys_trace s) =
    count_where is_unlock (sys_trace s)
    + (if mutex (sys_pool s) then 1 else 0).
Proof.
  intros s. destruct (pool_reached cancelled ic oc fn sched)
    as (n & _ & sts & Hinv).
  fold s in Hinv.
  destruct Hinv as (_ & _ & _ & Hmu & _ & _ & _ & Htr).
  split_and!; [done..|].
  pose proof (disciplined_balance _ _ Htr) as Hbal.
  fold (holder (sys_trace s)) in Hbal.
  rewrite Hmu. simpl in Hbal.
  destruct (holder (sys_trace s)); simpl; lia.
Qed.

(** X14.  No data race on the registry.  In every reachable state, a thread
    whose next operation reads or writes p.workers (a lookup, len, the
    range, an insert, a delete) holds the mutex; so at most one thread is
    at such an operation. *)
Theorem registry_access_needs_the_mutex (cancelled : bool) (ic : Chan Task)
    (oc : Chan Result) (fn : @WorkerFactoryFn Id FErr W)
    (sched : list action) tid th :
  let s := sys_run (init_system cancelled ic oc fn) sched in
  sys_threads s !! tid = Some th →
  about_to_access th = true →
  mutex (sys_pool s) = true ∧
  holder (sys_trace s) = Some tid ∧
  ∀ tid' th',
    sys_threads s !! tid' = Some th' → about_to_access th' = true →
    tid' = tid.
Proof.
  intros s Hl Hacc. destruct (pool_reached cancelled ic oc fn sched)
    as (n & Hsh & sts & Hinv).
  fold s in Hsh, Hinv.
  pose proof (accessor_holds _ _ _ _ _ _ _ Hsh Hinv Hl Hacc) as Hho.
  pose proof Hinv as (_ & _ & _ & Hmu & _).
  split_and!; [by rewrite Hmu, Hho|done|].
  intros tid' th' Hl' Hacc'.
  pose proof (accessor_holds _ _ _ _ _ _ _ Hsh Hinv Hl' Hacc') as Hho'.
  congruence.
Qed.

(** X15.  The registry in every interleaving: each worker sits under the
    identity it reports, and the number of entries is the number of
    inserts minus the number of deletes of the trace: no insert overwrites
    an entry and no delete misses. *)
Theorem registry_accounting (cancelled : bool) (ic : Chan Task)
    (oc : Chan Result) (fn : @WorkerFactoryFn Id FErr W)
    (sched : list action) :
  let s := sys_run (init_system cancelled ic oc fn) sched in
  registry_keyed (sys_pool s) ∧
  size (workers (sys_pool s)) + count_where is_delete (sys_trace s) =
    count_where is_insert (sys_trace s).
Proof.
  intros s. destruct (pool_reached cancelled ic oc fn sched)
    as (n & _ & sts & Hinv).
  fold s in Hinv.
  by destruct Hinv as (_ & _ & _ & _ & _ & Hkey & Hsize & _).
Qed.

(** ** What can panic *)







(** ** Critical sections end *)

(** Inside a critical section nothing blocks and nothing panics. *)
Lemma disc_held_enabled {A} h d (t : code A) seed p :
  disc h d t → is_held h = true → mutex p = true →
  ∃ r, step_prog t seed p = Done r.
Proof.
  destruct h as [|n kn]; [done|]. intros Hdisc _ Hmu.
  destruct t as [a|X o k]; [by destruct Hdisc|].
  destruct o; simpl in Hdisc |- *; try done; try by eexists.
  by rewrite Hmu; eexists.
Qed.

Lemma thread_disc_held_enabled st th seed p :
  thread_disc st th → is_held st.1 = true → mutex p = true →
  ∃ r, step_thread th seed p = Done r.
Proof.
  intros Hdisc Hheld Hmu.
  destruct th as [t|t|t|t|t|t|[w|] t]; simpl in Hdisc; [..|done]; simpl.
  1-6: destruct Hdisc as [Hdisc _];
    destruct (disc_held_enabled _ _ _ seed p Hdisc Hheld Hmu)
      as [[[t' p'] evs] ->]; by eexists.
  destruct Hdisc as [_ Hdisc].
  destruct (disc_held_enabled _ _ _ seed p Hdisc Hheld Hmu)
    as [[[t' p'] evs] ->]; by eexists.
Qed.

(** The holder of the mutex, run alone, gets to its unlock. *)
Lemma release (ic : Chan Task) (oc : Chan Result) seed m :
  ∀ n s sts i st,
    shutdown_inv ic oc n s →
    disc_inv_with sts s →
    sys_crashed s = false →
    sts !! i = Some st →
    is_held st.1 = true →
    fuel_of st.1 ≤ m →
    ∃ cnt sts',
      cnt ≤ m ∧
      shutdown_inv ic oc n (sys_run s (replicate cnt (Step (S i) seed))) ∧
      disc_inv_with sts' (sys_run s (replicate cnt (Step (S i) seed))) ∧
      sys_crashed (sys_run s (replicate cnt (Step (S i) seed))) = false ∧
      mutex (sys_pool (sys_run s (replicate cnt (Step (S i) seed)))) = false.
Proof.
  induction m as [|m IH]; intros n s sts i st Hsh Hinv Hcr Hsti Hheld Hfuel.
  { destruct st as [[|] ?]; simpl in *; [done|lia]. }
  pose proof Hinv as (Hall & Hst & Hbound & Hmu & _).
  destruct (Forall2_lookup_l _ _ _ _ _ Hall Hsti) as (th & Hi & Hdisc).
  destruct (Hst _ _ Hsti) as (Hho & _).
  rewrite Hheld in Hho. symmetry in Hho. apply bool_decide_eq_true in Hho.
  rewrite Hho in Hmu. cbn in Hmu.
  destruct (thread_disc_held_enabled _ _ seed _ Hdisc Hheld Hmu)
    as [[[th' p'] evs] Hstep].
  pose proof (disc_inv_step_S sts s i seed th st Hcr Hinv Hi Hsti) as Hs.
  rewrite Hstep in Hs.
  destruct Hs as (st' & sp & Hinv' & _ & _ & _ & _ & Hless & Hmu' & _ & Heq).
  pose proof (shutdown_inv_step_S ic oc n s i seed Hcr Hsh) as Hsh'.
  assert (sys_crashed (sys_step s (Step (S i) seed)) = false) as Hcr'
    by by rewrite Heq.
  assert (mutex (sys_pool (sys_step s (Step (S i) seed))) = is_held st'.1)
    as Hmu1 by (rewrite Heq; by apply Hmu').
  destruct (is_held st'.1) eqn:Hheld'.
  - destruct (IH n _ _ i st' Hsh' Hinv' Hcr') as (cnt & sts' & Hk & Hrest);
      [|done|specialize (Hless Hheld); lia|].
    { rewrite lookup_app_l by (rewrite length_insert;
                               by apply lookup_lt_Some in Hsti).
      apply list_lookup_insert_eq. by apply lookup_lt_Some in Hsti. }
    exists (S cnt), sts'. split; [lia|]. done.
  - exists 1, (<[i := st']> sts ++ sp). split; [lia|]. by split_and!.
Qed.


(** ** The shutdown can always complete *)

(** With the mutex free, every thread is outside the critical sections. *)
Lemma free_mutex_all_free sts s j st :
  disc_inv_with sts s →
  mutex (sys_pool s) = false →
  sts !! j = Some st →
  st.1 = Free.
Proof.
  intros (_ & Hst & _ & Hmu & _) Hfree Hj.
  destruct (Hst _ _ Hj) as (Hheld & _).
  rewrite Hfree in Hmu. symmetry in Hmu. apply bool_decide_eq_false in Hmu.
  destruct (holder (sys_trace s)) as [i|] eqn:Hho; [by destruct Hmu|].
  rewrite bool_decide_false in Hheld by done. by destruct st as [[|] ?].
Qed.

(** One step of the goroutine of a worker, outside the critical sections:
    nothing is started, the mutex stays free. *)
Lemma worker_step (ic : Chan Task) (oc : Chan Result) n s sts i w t st seed
    t' p' evs :
  shutdown_inv ic oc n s →
  disc_inv_with sts s →
  sys_crashed s = false →
  mutex (sys_pool s) = false →
  tail (sys_threads s) !! i = Some (TGo (GWorker w) t) →
  sts !! i = Some st →
  step_thread (TGo (GWorker w) t) seed (sys_pool s) =
    Done (TGo (GWorker w) t', p', evs) →
  ∃ st',
    shutdown_inv ic oc n (sys_step s (Step (S i) seed)) ∧
    disc_inv_with (<[i := st']> sts) (sys_step s (Step (S i) seed)) ∧
    sys_crashed (sys_step s (Step (S i) seed)) = false ∧
    mutex (sys_pool (sys_step s (Step (S i) seed))) = false ∧
    tail (sys_threads (sys_step s (Step (S i) seed))) !! i =
      Some (TGo (GWorker w) t') ∧
    (<[i := st']> sts) !! i = Some st'.
Proof.
  intros Hsh Hinv Hcr Hfree Hi Hsti Hstep.
  pose proof (disc_inv_step_S sts s i seed _ st Hcr Hinv Hi Hsti) as Hs.
  rewrite Hstep in Hs.
  destruct Hs as (st' & sp & Hinv' & Hsp & _ & _ & _ & _ & _ & _ & Heq).
  pose proof Hinv as (Hall & _).
  destruct (Forall2_lookup_r _ _ _ _ _ Hall Hi) as (st0 & Hsti0 & Hshape & _).
  destruct (worker_thread_step _ _ _ _ _ _ Hshape Hstep)
    as (_ & Hmu' & _ & _ & Hnil & _).
  rewrite Hnil in Hsp. apply Forall2_nil_inv_r in Hsp. subst sp.
  rewrite app_nil_r in Hinv'.
  pose proof (lookup_lt_Some _ _ _ Hsti) as Hlt.
  exists st'. split_and!; try done.
  - by apply shutdown_inv_step_S.
  - by rewrite Heq.
  - rewrite Heq. cbn [sys_pool]. by rewrite Hmu'.
  - rewrite Heq. cbn [sys_threads]. rewrite Hnil, app_nil_r.
    destruct (sys_threads s) as [|th0 rest]; [done|].
    simpl in Hi |- *. apply list_lookup_insert_eq.
    by apply lookup_lt_Some in Hi.
  - by apply list_lookup_insert_eq.
Qed.

(** The goroutine of a worker runs to its end: [Process] returns, then
    [wg.Done] finds the counter positive. *)
Lemma settle_worker (ic : Chan Task) (oc : Chan Result) n s sts i w t st :
  shutdown_inv ic oc n s →
  disc_inv_with sts s →
  sys_crashed s = false →
  mutex (sys_pool s) = false →
  tail (sys_threads s) !! i = Some (TGo (GWorker w) t) →
  sts !! i = Some st →
  ∃ more st',
    shutdown_inv ic oc n (sys_run s more) ∧
    disc_inv_with (<[i := st']> sts) (sys_run s more) ∧
    sys_crashed (sys_run s more) = false ∧
    mutex (sys_pool (sys_run s more)) = false ∧
    st'.2 = 0.
Proof.
  assert (∀ s sts st,
    shutdown_inv ic oc n s → disc_inv_with sts s →
    sys_crashed s = false → mutex (sys_pool s) = false →
    tail (sys_threads s) !! i = Some (TGo (GWorker w) worker_done) →
    sts !! i = Some st →
    ∃ more st',
      shutdown_inv ic oc n (sys_run s more) ∧
      disc_inv_with (<[i := st']> sts) (sys_run s more) ∧
      sys_crashed (sys_run s more) = false ∧
      mutex (sys_pool (sys_run s more)) = false ∧
      st'.2 = 0) as Hdone.
  { clear s sts st. intros s sts st Hsh Hinv Hcr Hfree Hi Hsti.
    pose proof Hinv as (Hall & _ & _ & _ & Hwg & _).
    destruct (Forall2_lookup_r _ _ _ _ _ Hall Hi) as (st0 & Hsti0 & _ & Hd).
    assert (st0 = st) as -> by congruence.
    destruct st as [[|] [|d]]; try done.
    assert (1 ≤ wg (sys_pool s)) as Hpos.
    { rewrite Hwg.
      pose proof (sum_list_with_in (Free, S d) snd sts
                    (list_elem_of_lookup_2 _ _ _ Hsti)). simpl in *. lia. }
    destruct (wg (sys_pool s)) as [|m] eqn:Hm; [lia|].
    destruct (worker_step ic oc n s sts i w worker_done _ 0 (Ret tt)
                (set_wg m (sys_pool s)) [EvWgDone] Hsh Hinv Hcr Hfree Hi Hsti)
      as (st' & Hsh' & Hinv' & Hcr' & Hfree' & Hi' & Hsti').
    { simpl. by rewrite Hm. }
    exists [Step (S i) 0], st'. split_and!; try done.
    destruct Hinv' as (Hall' & _).
    destruct (Forall2_lookup_r _ _ _ _ _ Hall' Hi')
      as (st1 & Hsti1 & _ & Hd').
    assert (st1 = st') as -> by congruence. by destruct Hd'. }
  intros Hsh Hinv Hcr Hfree Hi Hsti.
  pose proof Hinv as (Hall & _).
  destruct (Forall2_lookup_r _ _ _ _ _ Hall Hi) as (st0 & Hsti0 & Hshape & Hd).
  assert (st0 = st) as -> by congruence.
  destruct Hshape as [->|[->| ->]].
  - (* inside Process *)
    destruct (worker_step ic oc n s sts i w _ _ 0 worker_done
                (sys_pool s) [EvProcessReturn w] Hsh Hinv Hcr Hfree Hi Hsti)
      as (st1 & Hsh1 & Hinv1 & Hcr1 & Hfree1 & Hi1 & Hsti1); [done|].
    destruct (Hdone _ _ _ Hsh1 Hinv1 Hcr1 Hfree1 Hi1 Hsti1)
      as (more & st' & Hsh' & Hinv' & Hcr' & Hfree' & Hz).
    exists (Step (S i) 0 :: more), st'.
    rewrite list_insert_insert_eq in Hinv'. by split_and!.
  - by apply (Hdone s sts st).
  - (* returned *)
    exists [], st. simpl. rewrite list_insert_id by done.
    split_and!; try done. by destruct Hd.
Qed.

(** A thread outside the critical sections that is not the goroutine of a
    worker owes nothing. *)
Lemma caller_owes_nothing st th :
  thread_disc st th → st.1 = Free →
  (∀ w t, th ≠ TGo (GWorker w) t) →
  st.2 = 0.
Proof.
  intros Hdisc Hfree Hcall.
  destruct th as [t|t|t|t|t|t|[w|] t]; simpl in Hdisc; try done;
    try (destruct Hdisc as [_ Hd]; by apply Hd).
  by destruct (Hcall w t).
Qed.

(** The goroutines of the first [cnt] threads run to their ends. *)
Lemma settle_upto (ic : Chan Task) (oc : Chan Result) n cnt :
  ∀ s sts,
    shutdown_inv ic oc n s →
    disc_inv_with sts s →
    sys_crashed s = false →
    mutex (sys_pool s) = false →
    ∃ more sts',
      shutdown_inv ic oc n (sys_run s more) ∧
      disc_inv_with sts' (sys_run s more) ∧
      sys_crashed (sys_run s more) = false ∧
      mutex (sys_pool (sys_run s more)) = false ∧
      length sts' = length sts ∧
      ∀ j st, j < cnt → sts' !! j = Some st → st.2 = 0.
Proof.
  induction cnt as [|cnt IH]; intros s sts Hsh Hinv Hcr Hfree.
  { exists [], sts. split_and!; try done. intros j st Hj. lia. }
  destruct (IH s sts Hsh Hinv Hcr Hfree)
    as (more1 & sts1 & Hsh1 & Hinv1 & Hcr1 & Hfree1 & Hlen1 & Hz1).
  destruct (sts1 !! cnt) as [st|] eqn:Hsti.
  - pose proof Hinv1 as (Hall & _).
    destruct (Forall2_lookup_l _ _ _ _ _ Hall Hsti) as (th & Hi & Hdisc).
    pose proof (free_mutex_all_free _ _ _ _ Hinv1 Hfree1 Hsti) as Hst.
    assert ((∃ w t, th = TGo (GWorker w) t) ∨
            (∀ w t, th ≠ TGo (GWorker w) t)) as [(w & t & ->)|Hcall].
    { destruct th as [| | | | | |[w|] t]; try by right. left. by eexists _, _. }
    + destruct (settle_worker ic oc n _ _ _ _ _ _ Hsh1 Hinv1 Hcr1 Hfree1 Hi
                  Hsti)
        as (more2 & st' & Hsh2 & Hinv2 & Hcr2 & Hfree2 & Hz2).
      exists (more1 ++ more2), (<[cnt := st']> sts1).
      rewrite sys_run_app. split_and!; try done.
      * by rewrite length_insert.
      * intros j stj Hj Hl. destruct (decide (j = cnt)) as [->|Hne].
        -- rewrite list_lookup_insert_eq in Hl
             by by apply lookup_lt_Some in Hsti.
           by injection Hl as <-.
        -- rewrite list_lookup_insert_ne in Hl by done.
           apply (Hz1 j); [lia|done].
    + exists more1, sts1. split_and!; try done.
      intros j stj Hj Hl. destruct (decide (j = cnt)) as [->|Hne].
      * assert (stj = st) as -> by congruence.
        by apply (caller_owes_nothing _ th).
      * apply (Hz1 j); [lia|done].
  - exists more1, sts1. split_and!; try done.
    intros j stj Hj Hl. destruct (decide (j = cnt)) as [->|Hne].
    + congruence.
    + apply (Hz1 j); [lia|done].
Qed.

Lemma sum_list_with_zero {A} (f : A → nat) (l : list A) :
  (∀ j x, l !! j = Some x → f x = 0) → sum_list_with f l = 0.
Proof.
  induction l as [|x l IH]; intros Hall; [done|]. simpl.
  rewrite (Hall 0 x) by done. rewrite IH; [done|].
  intros j y Hj. by apply (Hall (S j)).
Qed.

(** With the context cancelled, no worker left and the channels handed in
    open, the shutdown goroutine gets through its next operation. *)
Lemma shutdown_advance (ic : Chan Task) (oc : Chan Result) n s seed :
  closed ic = false → closed oc = false →
  shutdown_inv ic oc n s →
  sys_crashed s = false →
  ctx (sys_pool s) = true →
  wg (sys_pool s) = 0 →
  shutdown_inv ic oc (S n `min` 4) (sys_step s (Step 0 seed)) ∧
  sys_crashed (sys_step s (Step 0 seed)) = false ∧
  ctx (sys_pool (sys_step s (Step 0 seed))) = true ∧
  wg (sys_pool (sys_step s (Step 0 seed))) = 0.
Proof.
  intros Hic0 Hoc0 Hinv Hcr Hc Hw.
  pose proof Hinv
    as (Hn & rest & ds & Hth & Hall & Hwg & Hev & Hctx & Hic & Hoc).
  unfold sys_step. rewrite Hcr, Hth. cbn [lookup list_lookup].
  rewrite <- Hth.
  destruct n as [|[|[|[|n]]]].
  - simpl. rewrite Hc. simpl. split_and!; try done.
    split; [lia|]. exists rest, ds.
    cbn [sys_pool sys_threads sys_trace].
    unfold shutdown_events in Hev |- *.
    rewrite Hth, app_nil_r, filter_app, Hev. by split_and!.
  - simpl. unfold chan_close. rewrite Hic, Hic0. simpl.
    split_and!; try done.
    split; [lia|]. exists rest, ds.
    cbn [sys_pool sys_threads sys_trace].
    unfold shutdown_events in Hev |- *.
    rewrite Hth, app_nil_r, filter_app, Hev.
    split_and!; try done; simpl; by rewrite orb_true_r.
  - simpl. rewrite Hw. simpl. split_and!; try done.
    split; [lia|]. exists rest, ds.
    cbn [sys_pool sys_threads sys_trace].
    unfold shutdown_events in Hev |- *.
    rewrite Hth, app_nil_r, filter_app, Hev.
    split_and!; try done; congruence.
  - simpl. unfold chan_close. rewrite Hoc, Hoc0. simpl.
    split_and!; try done.
    split; [lia|]. exists rest, ds.
    cbn [sys_pool sys_threads sys_trace].
    unfold shutdown_events in Hev |- *.
    rewrite Hth, app_nil_r, filter_app, Hev.
    split_and!; try done; simpl; by rewrite orb_true_r.
  - assert (n = 0) as -> by lia. simpl. by split_and!.
Qed.

(** X18.  The shutdown can always complete.  From every state the program
    can be in (channels handed in open, nothing panicked), there is a way
    on, the cancellation included, at the end of which the shutdown
    goroutine has returned: both channels are closed and the WaitGroup
    counter is 0.  No state blocks the shutdown for good: a critical
    section that is open ends, each worker's goroutine calls wg.Done once
    its Process returns (the model lets a Process return at any time), and
    then no operation of gracefullyShutdown blocks or panics. *)
Theorem shutdown_can_always_complete (cancelled : bool) (ic : Chan Task)
    (oc : Chan Result) (fn : @WorkerFactoryFn Id FErr W)
    (sched : list action) :
  closed ic = false →
  closed oc = false →
  let s := sys_run (init_system cancelled ic oc fn) sched in
  sys_crashed s = false →
  ∃ more,
    let s' := sys_run s more in
    sys_crashed s' = false ∧
    sys_threads s' !! 0 = Some (TGo GShutdown (Ret tt)) ∧
    closed (inputCh (sys_pool s')) = true ∧
    closed (outputCh (sys_pool s')) = true ∧
    wg (sys_pool s') = 0.
Proof.
  intros Hic0 Hoc0 s Hcr.
  destruct (pool_reached cancelled ic oc fn sched) as (n & Hsh & sts & Hinv).
  fold s in Hsh, Hinv.
  (* the open critical section ends *)
  assert (∃ more1 sts1,
    shutdown_inv ic oc n (sys_run s more1) ∧
    disc_inv_with sts1 (sys_run s more1) ∧
    sys_crashed (sys_run s more1) = false ∧
    mutex (sys_pool (sys_run s more1)) = false)
    as (more1 & sts1 & Hsh1 & Hinv1 & Hcr1 & Hfree1).
  { destruct (mutex (sys_pool s)) eqn:Hlocked;
      [|by exists [], sts].
    pose proof Hinv as (Hall & Hst & Hbound & Hmu & _).
    rewrite Hlocked in Hmu. symmetry in Hmu.
    apply bool_decide_eq_true in Hmu as [j Hj].
    destruct (Hbound _ Hj) as [Hpos Hlen]. destruct j as [|i]; [lia|].
    destruct (lookup_lt_is_Some_2 sts i) as [st Hsti]; [lia|].
    destruct (Hst _ _ Hsti) as (Hheld & _ & Hfuel).
    rewrite Hj, bool_decide_true in Hheld by done.
    destruct (release ic oc 0 5 n s sts i st Hsh Hinv Hcr Hsti Hheld Hfuel)
      as (cnt & sts' & _ & ? & ? & ? & ?).
    by eexists _, _. }
  (* the goroutines of the workers run to their ends *)
  destruct (settle_upto ic oc n (length sts1) _ _ Hsh1 Hinv1 Hcr1 Hfree1)
    as (more2 & sts2 & Hsh2 & Hinv2 & Hcr2 & Hfree2 & Hlen2 & Hz2).
  rewrite <- sys_run_app in Hsh2, Hinv2, Hcr2, Hfree2.
  set (s2 := sys_run s (more1 ++ more2)) in *.
  assert (wg (sys_pool s2) = 0) as Hwg2.
  { destruct Hinv2 as (_ & _ & _ & _ & -> & _).
    apply sum_list_with_zero. intros j st Hj. apply (Hz2 j); [|done].
    apply lookup_lt_Some in Hj. lia. }
  (* the cancellation, and the four operations of gracefullyShutdown *)
  set (s3 := sys_step s2 Cancel).
  assert (shutdown_inv ic oc n s3 ∧ sys_crashed s3 = false ∧
          ctx (sys_pool s3) = true ∧ wg (sys_pool s3) = 0)
    as (Hsh3 & Hcr3 & Hctx3 & Hwg3).
  { unfold s3, sys_step. rewrite Hcr2. cbn [sys_pool sys_crashed].
    split_and!; try done.
    destruct Hsh2
      as (Hn & rest & ds & Hth & Hall & Hwg & Hev & Hctx & Hic & Hoc).
    split; [done|]. exists rest, ds. by split_and!. }
  destruct (shutdown_advance ic oc _ s3 0 Hic0 Hoc0 Hsh3 Hcr3 Hctx3 Hwg3)
    as (Hsh4 & Hcr4 & Hctx4 & Hwg4).
  destruct (shutdown_advance ic oc _ _ 0 Hic0 Hoc0 Hsh4 Hcr4 Hctx4 Hwg4)
    as (Hsh5 & Hcr5 & Hctx5 & Hwg5).
  destruct (shutdown_advance ic oc _ _ 0 Hic0 Hoc0 Hsh5 Hcr5 Hctx5 Hwg5)
    as (Hsh6 & Hcr6 & Hctx6 & Hwg6).
  destruct (shutdown_advance ic oc _ _ 0 Hic0 Hoc0 Hsh6 Hcr6 Hctx6 Hwg6)
    as (Hsh7 & Hcr7 & Hctx7 & Hwg7).
  replace (S (S (S (S n `min` 4) `min` 4) `min` 4) `min` 4) with 4
    in Hsh7 by lia.
  exists (more1 ++ more2 ++ [Cancel; Step 0 0; Step 0 0; Step 0 0; Step 0 0]).
  rewrite app_assoc, sys_run_app. fold s2. cbn [sys_run foldl]. fold s3.
  destruct Hsh7
    as (_ & rest & ds & Hth & _ & _ & _ & _ & Hic & Hoc).
  split_and!; try done.
  - by rewrite Hth.
  - rewrite Hic. by rewrite orb_true_r.
  - rewrite Hoc. by rewrite orb_true_r.
Qed.

End Discipline.

(** * The further properties at work on the pool of the tests *)

Section TestPoolAtWork.

Local Open Scope Z_scope.

Local Abbreviation worker3 := (newTestWorker 3 inputHandle outputHandle).

(** AddWorker(3) on the new pool of [setupPool]. *)
Lemma AddWorker_success_effect_witness :
  mutex setupPool.1 = false ∧
  create_worker setupPool.1 3 = inl worker3 ∧
  workers setupPool.1 !! ID worker3 = None ∧
  result (exec (AddWorker 3) 0 setupPool.1) = Done None ∧
  result (exec Length 0 (final (exec (AddWorker 3) 0 setupPool.1))) = Done 1.
Proof.
  split; [reflexivity|]. split; [reflexivity|]. split; [reflexivity|].
  destruct (AddWorker_success_effect 3 0%nat setupPool.1 worker3
              eq_refl eq_refl eq_refl) as (Hres & _ & Hlen & _).
  exact (conj Hres (Hlen 0%nat 0 eq_refl)).
Defined.

(** RemoveWorker on a pool that has worker 3. *)
Lemma RemoveWorker_nonempty_witness :
  mutex (pool_with 3) = false ∧
  workers (pool_with 3) ≠ ∅ ∧
  ∃ k w,
    workers (pool_with 3) !! k = Some w ∧
    result (exec RemoveWorker 0 (pool_with 3)) = Done (Some w) ∧
    workers (final (exec RemoveWorker 0 (pool_with 3))) !! k = None.
Proof.
  assert (workers (pool_with 3) ≠ ∅) as Hne.
  { intros Hempty. apply (f_equal (λ m, m !! 3)) in Hempty.
    vm_compute in Hempty. discriminate Hempty. }
  split; [reflexivity|]. split; [exact Hne|].
  destruct (RemoveWorker_nonempty 0%nat (pool_with 3) eq_refl Hne)
    as (k & w & Hk & Hres & _ & _ & Hgone & _).
  exists k, w. exact (conj Hk (conj Hres Hgone)).
Defined.


(** RemoveWorkerById(3) on a pool that has worker 3. *)
Lemma RemoveWorkerById_effect_witness :
  mutex (pool_with 3) = false ∧
  workers (pool_with 3) !! 3 = Some worker3 ∧
  wg (final (exec (RemoveWorkerById 3) 0 (pool_with 3))) = wg (pool_with 3) ∧
  result (exec Length 0 (final (exec (RemoveWorkerById 3) 0 (pool_with 3)))) =
    Done (1 - 1).
Proof.
  split; [reflexivity|]. split; [reflexivity|].
  destruct (RemoveWorkerById_effect 3 0%nat (pool_with 3) worker3
              eq_refl eq_refl) as (_ & _ & Hwg & Hlen).
  exact (conj Hwg (Hlen 0%nat 1 eq_refl)).
Defined.

(** AddWorker(3) on a pool that has worker 3 fails; after
    RemoveWorkerById(3) it returns nil. *)
Lemma identity_is_reusable_after_removal_witness :
  mutex (pool_with 3) = false ∧
  create_worker (pool_with 3) 3 = inl worker3 ∧
  workers (pool_with 3) !! ID worker3 = Some worker3 ∧
  result (exec (AddWorker 3) 0 (pool_with 3)) =
    Done (Some (IdConflict (NewErrIdConflict 3))) ∧
  result (exec (AddWorker 3) 0
            (final (exec (RemoveWorkerById 3) 0 (pool_with 3)))) = Done None.
Proof.
  assert (workers (pool_with 3) !! ID worker3 = Some worker3) as Hold
    by reflexivity.
  split; [reflexivity|]. split; [reflexivity|]. split; [exact Hold|].
  destruct (identity_is_reusable_after_removal 3 0%nat (pool_with 3)
              worker3 worker3 eq_refl eq_refl Hold)
    as (Hfail & Hok & _).
  exact (conj Hfail Hok).
Defined.

(** AddWorker(3) and RemoveWorkerById(3) on the new pool. *)
Lemma add_then_remove_restores_registry_witness :
  mutex setupPool.1 = false ∧
  create_worker setupPool.1 3 = inl worker3 ∧
  workers setupPool.1 !! ID worker3 = None ∧
  result (exec (RemoveWorkerById 3) 0 (pool_with 3)) = Done (Some worker3) ∧
  workers (final (exec (RemoveWorkerById 3) 0 (pool_with 3))) =
    workers setupPool.1.
Proof.
  split; [reflexivity|]. split; [reflexivity|]. split; [reflexivity|].
  destruct (add_then_remove_restores_registry 3 0%nat setupPool.1 worker3
              eq_refl eq_refl eq_refl) as (Hres & Hsame & _).
  exact (conj Hres Hsame).
Defined.

(** Contains(3) and RemoveWorkerById(3) on a pool that has worker 3. *)
Lemma queries_agree_with_the_registry_witness :
  mutex (pool_with 3) = false ∧
  (∃ w, result (exec (RemoveWorkerById 3) 0 (pool_with 3)) = Done (Some w)) ∧
  final (exec Length 0 (pool_with 3)) = pool_with 3.
Proof.
  split; [reflexivity|].
  destruct (queries_agree_with_the_registry 3 0%nat (pool_with 3) eq_refl)
    as (Hiff & _ & _ & Hsame).
  exact (conj (proj1 Hiff eq_refl) Hsame).
Defined.

(** AddTask(1), AddTask(2), AddTask(3) on the new pool: capacity 10. *)
Lemma AddTask_keeps_order_witness :
  closed (inputCh setupPool.1) = false ∧
  (length (buf (inputCh setupPool.1)) + length [1; 2; 3]
   ≤ cap (inputCh setupPool.1))%nat ∧
  buf (inputCh (exec_calls (add_tasks 0 [1; 2; 3]) setupPool.1).2) =
    [1; 2; 3].
Proof.
  assert (length (buf (inputCh setupPool.1)) + length [1; 2; 3]
          ≤ cap (inputCh setupPool.1))%nat as Hroom by (simpl; lia).
  split; [reflexivity|]. split; [exact Hroom|].
  destruct (AddTask_keeps_order [1; 2; 3] 0%nat setupPool.1 eq_refl Hroom)
    as (_ & Hbuf & _).
  exact Hbuf.
Defined.

(** The removals on a pool that has worker 3. *)
Lemma removed_worker_has_left_the_registry_witness :
  mutex (pool_with 3) = false ∧
  registry_keyed (pool_with 3) ∧
  result (exec (Contains 3) 0 (final (exec RemoveWorker 0 (pool_with 3)))) =
    Done false.
Proof.
  assert (registry_keyed (pool_with 3)) as Hkey.
  { apply (registry_keyed_insert setupPool.1 worker3).
    intros k w Hl. discriminate Hl. }
  split; [reflexivity|]. split; [exact Hkey|].
  destruct (removed_worker_has_left_the_registry 0%nat (pool_with 3)
              eq_refl Hkey) as (_ & Hgone).
  exact (Hgone worker3 eq_refl 0%nat).
Defined.

(** A caller of Length that has locked the mutex is at [len(p.workers)]:
    it is thread 1, and it holds the mutex. *)
Lemma registry_access_needs_the_mutex_witness :
  sys_threads (sys_run test_system inside_Length) !! 1%nat =
    Some (TLength (Vis MapLen (λ n, Vis MutexUnlock (λ _, Ret n)))) ∧
  mutex (sys_pool (sys_run test_system inside_Length)) = true ∧
  holder (sys_trace (sys_run test_system inside_Length)) = Some 1%nat.
Proof.
  split; [reflexivity|].
  destruct (registry_access_needs_the_mutex false (mkChan (T := Z) [] 10 false)
              (mkChan (T := Z) [] 10 false) testFactory inside_Length 1%nat
              (TLength (Vis MapLen (λ n, Vis MutexUnlock (λ _, Ret n))))
              eq_refl eq_refl) as (Hmu & Hho & _).
  exact (conj Hmu Hho).
Defined.



(** After [late_add], where a worker was started behind the back of
    wg.Wait(), the shutdown still gets to its end. *)
Lemma shutdown_can_always_complete_witness :
  sys_crashed (sys_run test_system late_add) = false ∧
  ∃ more,
    closed (outputCh (sys_pool (sys_run (sys_run test_system late_add) more)))
      = true ∧
    wg (sys_pool (sys_run (sys_run test_system late_add) more)) = 0%nat.
Proof.
  split; [reflexivity|].
  destruct (shutdown_can_always_complete false (mkChan (T := Z) [] 10 false)
              (mkChan (T := Z) [] 10 false) testFactory late_add
              eq_refl eq_refl eq_refl) as (more & _ & _ & _ & Hout & Hwg).
  exists more. exact (conj Hout Hwg).
Defined.

End TestPoolAtWork.
